(** * The scan screen of the finance manager: a model of [App.tsx]

    The screen asks for camera permission, scans one QR code per scan
    session, posts the decoded text to the backend and renders the invoice
    that comes back.  This file embeds the component's state, its handlers,
    the asynchronous [fetchNFCe] and the render function, and proves the
    properties of the screen's specification against them. *)

From Stdlib Require Import Bool Arith ZArith QArith Qabs Qround Lia Lqa List.
From Stdlib Require Import Ascii String DecimalString DecimalN.
Import ListNotations.

Local Close Scope Q_scope.
Local Open Scope string_scope.
Local Open Scope list_scope.

(** ** JavaScript values used by the component *)

Module Js.

(** A [number].  The arithmetic the component does on numbers
    ([toFixed]) is defined by ECMAScript on the exact mathematical value
    of the number, so a finite number is kept as that value; every
    finite double is a rational. *)
Inductive number : Type :=
| NaN
| Infinity (negative : bool)
| Finite (q : Q).

(** Text as the screen displays it: literal characters, or the decimal
    string ECMAScript's [Number::toString] gives a finite non-zero
    number (the shortest digits that read back as the same double, in
    plain or exponent notation by magnitude), which is kept symbolic. *)
Inductive Piece : Type :=
| Lit (s : string)
| Shortest (q : Q).

Definition Text : Type := list Piece.

(** [Number::toString(x, 10)]. *)
Definition Number_toString (x : number) : Text :=
  match x with
  | NaN => [Lit "NaN"]
  | Infinity false => [Lit "Infinity"]
  | Infinity true => [Lit "-Infinity"]
  | Finite q =>
      if Qeq_bool q 0%Q then [Lit "0"]
      else if Qle_bool 0%Q q then [Shortest q]
      else [Lit "-"; Shortest (- q)%Q]
  end.

(** JavaScript truthiness of a string: only the empty string is falsy. *)
Definition truthy (s : string) : bool :=
  match s with
  | EmptyString => false
  | String _ _ => true
  end.

(** Truthiness of a [string | null] value. *)
Definition truthy_or_null (s : option string) : bool :=
  match s with
  | None => false
  | Some t => truthy t
  end.

Definition not_null {A : Type} (o : option A) : bool :=
  match o with
  | None => false
  | Some _ => true
  end.

(** The decimal representation of a non-negative integer. *)
Definition decimal (n : Z) : string :=
  NilZero.string_of_uint (N.to_uint (Z.to_N n)).

Fixpoint zeros (n : nat) : string :=
  match n with
  | O => EmptyString
  | S k => String "0" (zeros k)
  end.

(** The first [n] code units of [s], and the others. *)
Fixpoint split_at (n : nat) (s : string) : string * string :=
  match n, s with
  | O, _ => (EmptyString, s)
  | S _, EmptyString => (EmptyString, EmptyString)
  | S k, String c r => let (a, b) := split_at k r in (String c a, b)
  end.

(** The digits [m] of [n] with a point [f] places from the right, for
    [f] other than 0: when [m] has [f] digits or fewer it is first padded
    on the left with zeros to [f + 1] digits. *)
Definition insert_point (f : nat) (m : string) : string :=
  match f with
  | O => m
  | S _ =>
      let k := String.length m in
      let m := if (k <=? f)%nat then (zeros (f + 1 - k) ++ m)%string else m in
      let k := String.length m in
      let (a, b) := split_at (k - f) m in
      (a ++ "." ++ b)%string
  end.

(** [Number.prototype.toFixed(fractionDigits)], for a [fractionDigits]
    in the range 0..100 that raises no [RangeError] (the component
    passes 2).  The steps are those of ECMAScript:
    a value that is not finite goes to [Number::toString]; the sign is
    split off; a magnitude of 10^21 or more goes to [Number::toString];
    otherwise [n] is the integer for which [n / 10^f - x] is closest to
    zero, the larger one on a tie, and its digits get a point [f] places
    from the right. *)
Definition toFixed (fractionDigits : nat) (x : number) : Text :=
  match x with
  | NaN | Infinity _ => Number_toString x
  | Finite q =>
      let neg := negb (Qle_bool 0%Q q) in
      let s := if neg then "-" else EmptyString in
      let ax := if neg then (- q)%Q else q in
      if Qle_bool (inject_Z (10 ^ 21)%Z) ax then
        Lit s :: Number_toString (Finite ax)
      else
        let f := fractionDigits in
        let n := Qfloor (ax * inject_Z (10 ^ Z.of_nat f)%Z + (1 # 2))%Q in
        [Lit (s ++ insert_point f (decimal n))%string]
  end.

(** A value as [JSON.parse] builds it, [null] apart: a boolean, a
    number, a string, an array or an object with its properties in the
    order of the text. *)
#[warnings="-register-all"]
Inductive Value : Type :=
| VBool (b : bool)
| VNumber (x : number)
| VString (s : string)
| VArray (items : list (option Value))
| VObject (fields : list (string * option Value)).

(** A JSON value; [None] is [null].  Reading a property that an object
    does not have gives [undefined], which every use the component makes
    of a value (a truthiness test, a React child, a method call) treats
    as it treats [null]: it is [None] as well. *)
Definition Json : Type := option Value.

(** Truthiness: [false], [0], [NaN], the empty string and [null] are
    falsy, every array and object is truthy. *)
Definition truthy_value (v : Value) : bool :=
  match v with
  | VBool b => b
  | VNumber NaN => false
  | VNumber (Infinity _) => true
  | VNumber (Finite q) => negb (Qeq_bool q 0%Q)
  | VString s => truthy s
  | VArray _ | VObject _ => true
  end.

Definition truthy_json (j : Json) : bool :=
  match j with
  | None => false
  | Some v => truthy_value v
  end.

(** [v.key] for a [v] other than [null], and a [key] that is no
    property of a prototype: the property of an object of that name (the
    last one when the text repeated the name), nothing for a value that
    is not an object. *)
Definition get (v : Value) (key : string) : Json :=
  match v with
  | VObject fields =>
      match find (fun kv => String.eqb (fst kv) key) (rev fields) with
      | Some (_, x) => x
      | None => None
      end
  | _ => None
  end.

(** The result of evaluating a piece of the render: the element built,
    or an exception ([TypeError] of a call on a value without the
    method, or React's error for an object given as a child). *)
Inductive Rendered (A : Type) : Type :=
| Built (a : A)
| Throws.
Arguments Built {A} a.
Arguments Throws {A}.

(** [{value}] as a child of a [<Text>]: [null], [undefined] and
    booleans render nothing, a string and a number their characters, an
    array its children in turn; an object is refused. *)
Fixpoint child_value (v : Value) : Rendered Text :=
  match v with
  | VBool _ => Built []
  | VNumber x => Built (Number_toString x)
  | VString s => Built [Lit s]
  | VArray items =>
      (fix children (l : list (option Value)) : Rendered Text :=
         match l with
         | [] => Built []
         | None :: rest => children rest
         | Some x :: rest =>
             match child_value x, children rest with
             | Built a, Built b => Built (a ++ b)
             | _, _ => Throws
             end
         end) items
  | VObject _ => Throws
  end.

Definition child (j : Json) : Rendered Text :=
  match j with
  | None => Built []
  | Some v => child_value v
  end.

(** [value.toFixed(fractionDigits)]: only a number has the method. *)
Definition call_toFixed (fractionDigits : nat) (j : Json) : Rendered Text :=
  match j with
  | Some (VNumber x) => Built (toFixed fractionDigits x)
  | _ => Throws
  end.

(** [value.map(f)] where [f] may throw: only an array has the method,
    and the first exception of [f] ends the call. *)
Fixpoint map_items {A : Type} (f : Json -> Rendered A) (items : list Json)
  : Rendered (list A) :=
  match items with
  | [] => Built []
  | item :: rest =>
      match f item, map_items f rest with
      | Built a, Built l => Built (a :: l)
      | _, _ => Throws
      end
  end.

Definition call_map {A : Type} (f : Json -> Rendered A) (j : Json)
  : Rendered (list A) :=
  match j with
  | Some (VArray items) => map_items f items
  | _ => Throws
  end.

End Js.

Import Js.

(** ** The data the backend answers with

    The source declares the type [Invoice] for the body of a successful
    answer.  The declaration is erased by the compiler: what the cell
    [invoice] holds at run time is whatever JSON value the body was.  The
    records below are the declared shape, [invoice_json] the value of
    that shape. *)

Record InvoiceItem : Type := {
  descricao : string;
  quantidade : number;
  valor_unitario : number;
  valor_total : number
}.

Record Invoice : Type := {
  loja : string;
  cnpj : string;
  data_emissao : string;
  total : number;
  itens : list InvoiceItem
}.

Definition item_json (item : InvoiceItem) : Json :=
  Some (VObject
          [("descricao", Some (VString (descricao item)));
           ("quantidade", Some (VNumber (quantidade item)));
           ("valor_unitario", Some (VNumber (valor_unitario item)));
           ("valor_total", Some (VNumber (valor_total item)))]).

Definition invoice_json (i : Invoice) : Value :=
  VObject
    [("loja", Some (VString (loja i)));
     ("cnpj", Some (VString (cnpj i)));
     ("data_emissao", Some (VString (data_emissao i)));
     ("total", Some (VNumber (total i)));
     ("itens", Some (VArray (map item_json (itens i))))].

(** ** The component's state: the six [useState] cells *)

Record State : Type := {
  hasPermission : option bool;
  isScanning : bool;
  rawUrl : option string;
  invoice : Json;
  loading : bool;
  error : option string
}.

Definition initial : State :=
  {| hasPermission := None; isScanning := false; rawUrl := None;
     invoice := None; loading := false; error := None |}.

(** ** The platform: promises, the network and the camera *)

Inductive JsError : Type :=
| TypeError (message : string)
| SyntaxError (message : string).

(** How a promise settles. *)
Inductive Settled (A : Type) : Type :=
| Fulfilled (v : A)
| Rejected (reason : JsError).
Arguments Fulfilled {A} v.
Arguments Rejected {A} reason.

(** A [Response]: its status, and how the promises of [res.text()] and
    [res.json()] settle.  [res.json()] is fulfilled with the value of the
    body whenever the body is JSON text, of whatever shape ([null]
    included), and rejected with a [SyntaxError] when it is not. *)
Record Response : Type := {
  status : nat;
  text : Settled string;
  json : Settled Json
}.

(** [res.ok]: the status is in the range 200..299. *)
Definition ok (res : Response) : bool :=
  ((200 <=? status res) && (status res <=? 299))%nat.
Arguments ok : simpl never.

(** The arguments of the call [fetch(BACKEND_URL, {...})]; [body] is the
    [url] of the object [{ url }] that is given to [JSON.stringify]. *)
Record Request : Type := {
  endpoint : string;
  method : string;
  contentType : string;
  body : string
}.

Definition BACKEND_URL : string :=
  "https://finance-manager-python-server.vercel.app/consulta-nfce".

Module Camera.
Record PermissionResponse : Type := { status : string }.
Record BarcodeScanningResult : Type := { type : string; data : string }.
End Camera.

(** ** Effects of the handlers *)

Inductive Logged : Type :=
| LogText (s : string)
| LogInvoice (i : Json)
| LogError (e : JsError).

Inductive Action : Type :=
| SetHasPermission (v : option bool)
| SetIsScanning (v : bool)
| SetRawUrl (v : option string)
| SetInvoice (v : Json)
| SetLoading (v : bool)
| SetError (v : option string)
| ConsoleLog (label : string) (what : Logged)
| ConsoleError (label : string) (what : Logged)
| Fetch (req : Request)
| RequestCameraPermissions.

(** What a handler does, in order: an action, or a point where it waits
    for a promise and other handlers may run. *)
Inductive Effect : Type :=
| Do (a : Action)
| Suspend.

Inductive Completion (A : Type) : Type :=
| Normal (v : A)
| Returned
| Thrown (e : JsError).
Arguments Normal {A} v.
Arguments Returned {A}.
Arguments Thrown {A} e.

(** The monad of handler code: the effects so far and how the code
    completed.  The platform's answers are arguments of the code. *)
Definition M (A : Type) : Type := list Effect * Completion A.

Definition ret {A : Type} (v : A) : M A := ([], Normal v).

Definition bind {A B : Type} (m : M A) (k : A -> M B) : M B :=
  match m with
  | (l, Normal v) => let (l', c) := k v in (l ++ l', c)
  | (l, Returned) => (l, Returned)
  | (l, Thrown e) => (l, Thrown e)
  end.

Notation "x <- m ;; k" := (bind m (fun x => k))
  (at level 61, m at next level, right associativity).
Notation "m ;; k" := (bind m (fun _ => k))
  (at level 61, right associativity).

Definition act (a : Action) : M unit := ([Do a], Normal tt).

(** [await p]. *)
Definition await {A : Type} (p : Settled A) : M A :=
  ([Suspend],
   match p with
   | Fulfilled v => Normal v
   | Rejected e => Thrown e
   end).

(** [return;] *)
Definition return_ {A : Type} : M A := ([], Returned).

(** [try { body } catch (err) { handler err } finally { final }]: the
    handler runs when the body throws, the final block runs on every
    path, and an abrupt completion of the final block replaces the one
    before it. *)
Definition try_catch_finally {A : Type}
    (body : M A) (handler : JsError -> M A) (final : M unit) : M A :=
  let (l1, c1) := body in
  let (l2, c2) :=
    match c1 with
    | Thrown e => handler e
    | _ => ([], c1)
    end in
  let (l3, c3) := final in
  (l1 ++ l2 ++ l3,
   match c3 with
   | Normal _ => c2
   | Returned => Returned
   | Thrown e => Thrown e
   end).

(** A call of an async function whose promise is dropped, as the last
    statement of its caller: the callee's effects follow the caller's. *)
Definition call_dropped {A : Type} (callee : M A) : M unit :=
  (fst callee, Normal tt).

(** ** [fetchNFCe] *)

Definition MSG_PROCESSING : string :=
  "Não foi possível processar a nota. Tente novamente.".

Definition MSG_CONNECTION : string := "Erro de conexão com o servidor.".

Definition request_for (url : string) : Request :=
  {| endpoint := BACKEND_URL; method := "POST";
     contentType := "application/json"; body := url |}.

Definition fetchNFCe (fetch : Request -> Settled Response) (url : string)
  : M unit :=
  try_catch_finally
    (act (SetLoading true) ;;
     act (SetError None) ;;
     act (SetInvoice None) ;;
     res <- (act (Fetch (request_for url)) ;; await (fetch (request_for url))) ;;
     (if negb (ok res) then
        text <- await (text res) ;;
        act (ConsoleError "Erro backend:" (LogText text)) ;;
        act (SetError (Some MSG_PROCESSING)) ;;
        return_
      else ret tt) ;;
     data <- await (json res) ;;
     act (ConsoleLog "Invoice:" (LogInvoice data)) ;;
     act (SetInvoice data))
    (fun err =>
       act (ConsoleError "Erro fetch:" (LogError err)) ;;
       act (SetError (Some MSG_CONNECTION)))
    (act (SetLoading false)).

(** ** The handlers *)

Definition handleBarcodeScanned (fetch : Request -> Settled Response)
    (result : Camera.BarcodeScanningResult) : M unit :=
  act (SetIsScanning false) ;;
  act (SetRawUrl (Some (Camera.data result))) ;;
  act (ConsoleLog "QR LIDO:" (LogText (Camera.data result))) ;;
  call_dropped (fetchNFCe fetch (Camera.data result)).

(** The effect run once when the screen mounts. *)
Definition requestPermission (answer : Settled Camera.PermissionResponse)
  : M unit :=
  call_dropped
    (r <- (act RequestCameraPermissions ;; await answer) ;;
     act (SetHasPermission (Some (Camera.status r =? "granted")%string))).

(** ** What the screen shows *)

Record Button : Type := { title : string; onPress : M unit }.

Record CameraView : Type := {
  facing : string;
  barcodeTypes : list string;
  onBarcodeScanned : Camera.BarcodeScanningResult -> M unit
}.

Record ItemCard : Type := {
  itemDescription : Text;
  itemSubText : Text;
  itemTotal : Text
}.

Record ResultScroll : Type := {
  storeName : Text;
  storeCnpj : Text;
  storeEmissao : option Text;
  totalLabel : Text;
  totalValue : Text;
  itemsTitle : Text;
  itemCards : list ItemCard;
  rawUrlBox : option (Text * Text)
}.

(** The main screen.  Each conditional slot is [None] when its condition
    gives [false], [null] or an empty string, which React leaves out.
    The invoice card is the one slot whose content reads the parsed
    body: when its condition holds it is the card, or the exception that
    building the card raised.  Its condition ends in the value of the
    cell itself, so that a falsy number in the cell ([0] or [NaN]) is the
    child in place of the card: [strayText], characters outside any
    [<Text>], which React Native refuses with an exception. *)
Record MainScreen : Type := {
  titleText : Text;
  subtitle : Text;
  actions : Button;
  scannerContainer : option CameraView;
  statusBox : option Text;
  statusBoxError : option Text;
  resultScroll : option (Rendered ResultScroll);
  strayText : option Text;
  emptyBox : option Text
}.

Inductive View : Type :=
| Center (t : Text)
| CenterError (t : Text)
| Container (m : MainScreen).

(** Whether the render that gives this view ends with an exception. *)
Definition throws (v : View) : bool :=
  match v with
  | Container {| resultScroll := Some Throws |} => true
  | Container {| strayText := Some _ |} => true
  | _ => false
  end.

(** [{cond && <element/>}] *)
Definition when {A : Type} (cond : bool) (element : A) : option A :=
  if cond then Some element else None.

(** One card of [invoice.itens.map(...)], for an element of any shape:
    [item.descricao] and [item.quantidade] are children of a text,
    [toFixed] is called on [item.valor_unitario] and [item.valor_total];
    reading a property of [null] throws. *)
Definition renderItem (item : Json) : Rendered ItemCard :=
  match item with
  | None => Throws
  | Some v =>
      match child (get v "descricao"), child (get v "quantidade"),
            call_toFixed 2 (get v "valor_unitario"),
            call_toFixed 2 (get v "valor_total") with
      | Built description, Built quantity, Built unit, Built line =>
          Built {| itemDescription := description;
                   itemSubText :=
                     Lit "Qtd: " :: quantity
                     ++ Lit " • Vl. unit: R$" :: Lit " " :: unit;
                   itemTotal := Lit "R$ " :: line |}
      | _, _, _, _ => Throws
      end
  end.

(** The invoice card, for a truthy value of any shape in the cell
    [invoice]. *)
Definition renderResult (rawUrl : option string) (invoice : Value)
  : Rendered ResultScroll :=
  match child (get invoice "loja"), child (get invoice "cnpj"),
        (if truthy_json (get invoice "data_emissao")
         then child (get invoice "data_emissao") else Built []),
        call_toFixed 2 (get invoice "total"),
        call_map renderItem (get invoice "itens") with
  | Built name, Built number, Built date, Built amount, Built cards =>
      Built {| storeName := name;
               storeCnpj := Lit "CNPJ: " :: number;
               storeEmissao :=
                 if truthy_json (get invoice "data_emissao")
                 then Some (Lit "Emissão: " :: date)
                 else None;
               totalLabel := [Lit "Total da compra"];
               totalValue := Lit "R$ " :: amount;
               itemsTitle := [Lit "Itens da Nota"];
               itemCards := cards;
               rawUrlBox :=
                 match rawUrl with
                 | Some u =>
                     when (truthy u) ([Lit "QR lido (URL NFC-e):"], [Lit u])
                 | None => None
                 end |}
  | _, _, _, _, _ => Throws
  end.

(** The card and the invoice card for a value of the declared shape. *)
Definition itemCard (item : InvoiceItem) : ItemCard :=
  {| itemDescription := [Lit (descricao item)];
     itemSubText :=
       Lit "Qtd: " :: Number_toString (quantidade item)
       ++ Lit " • Vl. unit: R$" :: Lit " " :: toFixed 2 (valor_unitario item);
     itemTotal := Lit "R$ " :: toFixed 2 (valor_total item) |}.

Definition invoiceResult (rawUrl : option string) (invoice : Invoice)
  : ResultScroll :=
  {| storeName := [Lit (loja invoice)];
     storeCnpj := [Lit "CNPJ: "; Lit (cnpj invoice)];
     storeEmissao :=
       if truthy (data_emissao invoice)
       then Some [Lit "Emissão: "; Lit (data_emissao invoice)]
       else None;
     totalLabel := [Lit "Total da compra"];
     totalValue := Lit "R$ " :: toFixed 2 (total invoice);
     itemsTitle := [Lit "Itens da Nota"];
     itemCards := map itemCard (itens invoice);
     rawUrlBox :=
       match rawUrl with
       | Some u => when (truthy u) ([Lit "QR lido (URL NFC-e):"], [Lit u])
       | None => None
       end |}.

(** The component's render: [App] as a function of the state cells.  The
    handlers it attaches close over the platform's [fetch].  When the
    slot of the invoice card holds [Throws] or there is a stray text, the
    render ends with an exception and nothing of the screen is shown. *)
Definition App (fetch : Request -> Settled Response) (s : State) : View :=
  match hasPermission s with
  | None => Center [Lit "Pedindo permissão da câmera..."]
  | Some false =>
      CenterError [Lit "Sem acesso à câmera. Habilite nas configurações."]
  | Some true =>
      Container
        {| titleText := [Lit "Finance Manager"];
           subtitle := [Lit "Escaneie o QRCode da sua Nota Fiscal"];
           actions :=
             if isScanning s
             then {| title := "Cancelar leitura";
                     onPress := act (SetIsScanning false) |}
             else {| title := "Escanear Nota";
                     onPress := act (SetIsScanning true) |};
           scannerContainer :=
             when (isScanning s)
               {| facing := "back"; barcodeTypes := ["qr"];
                  onBarcodeScanned := handleBarcodeScanned fetch |};
           statusBox := when (loading s) [Lit "Processando nota..."];
           statusBoxError :=
             match error s with
             | Some e => when (truthy e && negb (loading s)) [Lit e]
             | None => None
             end;
           resultScroll :=
             match invoice s with
             | Some v =>
                 when (negb (loading s) && negb (truthy_or_null (error s))
                       && truthy_value v)
                   (renderResult (rawUrl s) v)
             | None => None
             end;
           strayText :=
             match invoice s with
             | Some (VNumber x) =>
                 when (negb (loading s) && negb (truthy_or_null (error s))
                       && negb (truthy_value (VNumber x)))
                   (Number_toString x)
             | _ => None
             end;
           emptyBox :=
             when (negb (loading s) && negb (truthy_or_null (error s))
                   && negb (truthy_json (invoice s)) && negb (isScanning s))
               [Lit "Nenhuma nota escaneada ainda. Toque em"; Lit " ";
                Lit "“Escanear Nota”"; Lit " para começar."] |}
  end.

(** ** Running the handlers *)

Definition apply (a : Action) (s : State) : State :=
  match a with
  | SetHasPermission v =>
      {| hasPermission := v; isScanning := isScanning s; rawUrl := rawUrl s;
         invoice := invoice s; loading := loading s; error := error s |}
  | SetIsScanning v =>
      {| hasPermission := hasPermission s; isScanning := v; rawUrl := rawUrl s;
         invoice := invoice s; loading := loading s; error := error s |}
  | SetRawUrl v =>
      {| hasPermission := hasPermission s; isScanning := isScanning s;
         rawUrl := v; invoice := invoice s; loading := loading s;
         error := error s |}
  | SetInvoice v =>
      {| hasPermission := hasPermission s; isScanning := isScanning s;
         rawUrl := rawUrl s; invoice := v; loading := loading s;
         error := error s |}
  | SetLoading v =>
      {| hasPermission := hasPermission s; isScanning := isScanning s;
         rawUrl := rawUrl s; invoice := invoice s; loading := v;
         error := error s |}
  | SetError v =>
      {| hasPermission := hasPermission s; isScanning := isScanning s;
         rawUrl := rawUrl s; invoice := invoice s; loading := loading s;
         error := v |}
  | ConsoleLog _ _ | ConsoleError _ _ | Fetch _ | RequestCameraPermissions => s
  end.

(** The effects that remain of a handler: what it does when it runs next. *)
Definition Task : Type := list Effect.

(** Runs a task to its next [Suspend] or to its end: the state, the
    actions done (appended to [h], oldest first) and what remains. *)
Fixpoint run_task (t : Task) (s : State) (h : list Action)
  : State * list Action * Task :=
  match t with
  | [] => (s, h, [])
  | Suspend :: k => (s, h, k)
  | Do a :: k => run_task k (apply a s) (h ++ [a])
  end.

(** Runs a task to its end with nothing else in between. *)
Fixpoint run_alone (t : Task) (s : State) : State :=
  match t with
  | [] => s
  | Suspend :: k => run_alone k s
  | Do a :: k => run_alone k (apply a s)
  end.

(** The actions of a task, in order. *)
Fixpoint actions_of (t : Task) : list Action :=
  match t with
  | [] => []
  | Suspend :: k => actions_of k
  | Do a :: k => a :: actions_of k
  end.

(** The part of a task after its first [Suspend]. *)
Fixpoint continuation (t : Task) : Task :=
  match t with
  | [] => []
  | Suspend :: k => k
  | Do _ :: k => continuation k
  end.

(** The part of a task up to its first [Suspend]. *)
Fixpoint first_run (t : Task) : list Action :=
  match t with
  | [] => []
  | Suspend :: _ => []
  | Do a :: k => a :: first_run k
  end.

(** ** The screen as a transition system *)

Record World : Type := {
  ui : State;
  pending : list Task;
  history : list Action
}.

Definition park (k : Task) : list Task :=
  match k with
  | [] => []
  | _ :: _ => [k]
  end.

(** A handler is called: it runs to its first [Suspend]; what remains
    waits among the pending tasks. *)
Definition start (t : Task) (w : World) : World :=
  let '(s, h, k) := run_task t (ui w) (history w) in
  {| ui := s; pending := pending w ++ park k; history := h |}.

(** The [i]-th pending task runs on. *)
Definition resume (i : nat) (w : World) : option World :=
  match nth_error (pending w) i with
  | None => None
  | Some t =>
      let '(s, h, k) := run_task t (ui w) (history w) in
      Some {| ui := s;
              pending := firstn i (pending w) ++ park k ++ skipn (S i) (pending w);
              history := h |}
  end.

Inductive Event : Type :=
| Press
| Scanned (result : Camera.BarcodeScanningResult)
| Settle (i : nat).

(** One step of the screen: the user presses the scan control, the
    viewfinder reports a code, or a pending task runs on.  A control
    takes events only while it is rendered. *)
Definition step (fetch : Request -> Settled Response) (w : World) (e : Event)
  : option World :=
  match e with
  | Press =>
      match App fetch (ui w) with
      | Container m => Some (start (fst (onPress (actions m))) w)
      | _ => None
      end
  | Scanned result =>
      match App fetch (ui w) with
      | Container m =>
          match scannerContainer m with
          | Some cam => Some (start (fst (onBarcodeScanned cam result)) w)
          | None => None
          end
      | _ => None
      end
  | Settle i => resume i w
  end.

(** The screen mounts: the state cells hold their initial values and the
    effect asks for the camera permission. *)
Definition mount (answer : Settled Camera.PermissionResponse) : World :=
  start (fst (requestPermission answer))
    {| ui := initial; pending := []; history := [] |}.

(** The network's behaviour at the time of an event, and the event. *)
Definition Input : Type := (Request -> Settled Response) * Event.

Fixpoint run (w : World) (l : list Input) : option World :=
  match l with
  | [] => Some w
  | (fetch, e) :: l' =>
      match step fetch w e with
      | Some w' => run w' l'
      | None => None
      end
  end.

Inductive reachable : World -> Prop :=
| reachable_mount answer : reachable (mount answer)
| reachable_step w fetch e w' :
    reachable w -> step fetch w e = Some w' -> reachable w'.

(** * Notions the properties are stated with *)

(** The status contents of the main screen, in the order of the source. *)
Inductive StatusContent : Type :=
| LoadingIndicator
| ErrorBanner
| InvoiceCard
| EmptyPlaceholder.

(** The content [c] when its slot of the main screen is rendered. *)
Definition shown {A : Type} (slot : option A) (c : StatusContent)
  : list StatusContent :=
  match slot with
  | Some _ => [c]
  | None => []
  end.

(** The status contents a main screen renders. *)
Definition status_contents (m : MainScreen) : list StatusContent :=
  shown (statusBox m) LoadingIndicator
  ++ shown (statusBoxError m) ErrorBanner
  ++ shown (resultScroll m) InvoiceCard
  ++ shown (emptyBox m) EmptyPlaceholder.

(** The number of calls of [fetch] among some actions. *)
Fixpoint fetches (h : list Action) : nat :=
  match h with
  | [] => 0
  | Fetch _ :: k => S (fetches k)
  | _ :: k => fetches k
  end.

(** The number of permission requests among some actions. *)
Fixpoint permission_requests (h : list Action) : nat :=
  match h with
  | [] => 0
  | RequestCameraPermissions :: k => S (permission_requests k)
  | _ :: k => permission_requests k
  end.

(** The state after some actions, done in order. *)
Definition apply_all (l : list Action) (s : State) : State :=
  fold_left (fun s a => apply a s) l s.

(** What [fetchNFCe] does before it waits for the promise of [fetch]. *)
Definition prelude (url : string) : Task :=
  [Do (SetLoading true); Do (SetError None); Do (SetInvoice None);
   Do (Fetch (request_for url))].

(** A failure path: the cause goes to the console, the message to
    [error], and [loading] ends. *)
Definition failed (label : string) (what : Logged) (msg : string) : Task :=
  [Do (ConsoleError label what); Do (SetError (Some msg));
   Do (SetLoading false)].

(** What [fetchNFCe] does once the promise of [fetch] has settled. *)
Definition epilogue (answer : Settled Response) : Task :=
  match answer with
  | Rejected e => failed "Erro fetch:" (LogError e) MSG_CONNECTION
  | Fulfilled res =>
      Suspend ::
      if ok res then
        match json res with
        | Fulfilled data =>
            [Do (ConsoleLog "Invoice:" (LogInvoice data));
             Do (SetInvoice data); Do (SetLoading false)]
        | Rejected e => failed "Erro fetch:" (LogError e) MSG_CONNECTION
        end
      else
        match text res with
        | Fulfilled body => failed "Erro backend:" (LogText body) MSG_PROCESSING
        | Rejected e => failed "Erro fetch:" (LogError e) MSG_CONNECTION
        end
  end.


(** An invoice is set: the cell holds a value that the source takes for
    an invoice, a truthy one.  [null] is none; so are [false], [0] and
    the empty string, values outside the declared type [Invoice | null]
    that a body may still parse to. *)
Definition invoice_set (s : State) : bool := truthy_json (invoice s).


(** What a view shows: which of the three layouts, and for the main
    screen the status contents that are rendered. *)
Inductive Shown : Type :=
| ShowsCenter
| ShowsCenterError
| ShowsContainer (contents : list StatusContent).

Definition shown_by (v : View) : Shown :=
  match v with
  | Center _ => ShowsCenter
  | CenterError _ => ShowsCenterError
  | Container m => ShowsContainer (status_contents m)
  end.


(** One for [true], for counting. *)
Definition b2n (b : bool) : nat := if b then 1 else 0.

(** The event starts a scan session: the control is pressed while no
    scan is going on. *)
Definition starts_scan (w : World) (e : Event) : bool :=
  match e with
  | Press => negb (isScanning (ui w))
  | _ => false
  end.

(** The number of scan sessions started along a run. *)
Fixpoint starts (w : World) (l : list Input) : nat :=
  match l with
  | [] => 0
  | (fetch, e) :: l' =>
      match step fetch w e with
      | Some w' => b2n (starts_scan w e) + starts w' l'
      | None => 0
      end
  end.

(** The values the source gives [error]. *)
Definition error_ok (v : option string) : Prop :=
  v = None \/ v = Some MSG_PROCESSING \/ v = Some MSG_CONNECTION.

(** The actions of a fetch once its request is out: nothing but logs and
    the cells [invoice], [loading] and [error], the latter with one of the
    two messages. *)
Definition quiet_action (a : Action) : Prop :=
  match a with
  | SetInvoice _ | SetLoading _ | ConsoleLog _ _ | ConsoleError _ _ => True
  | SetError v => error_ok v
  | _ => False
  end.

Definition quiet_effect (e : Effect) : Prop :=
  match e with
  | Do a => quiet_action a
  | Suspend => True
  end.

Definition quiet_task (t : Task) : Prop := Forall quiet_effect t.

(** Before the permission request has settled nothing else is pending;
    afterwards only fetches are. *)
Definition Inv (w : World) : Prop :=
  error_ok (error (ui w))
  /\ ((hasPermission (ui w) = None
       /\ (pending w = []
           \/ exists b, pending w = [[Do (SetHasPermission (Some b))]]))
      \/ (hasPermission (ui w) <> None /\ Forall quiet_task (pending w))).

Definition is_digit (c : ascii) : bool :=
  ((48 <=? nat_of_ascii c) && (nat_of_ascii c <=? 57))%nat.

Fixpoint all_digits (s : string) : bool :=
  match s with
  | EmptyString => true
  | String c r => is_digit c && all_digits r
  end.

Definition two_digits (s : string) : bool :=
  match s with
  | String a (String b EmptyString) => is_digit a && is_digit b
  | _ => false
  end.

(** Digits, at least one when [seen] is false, then a point and two
    digits. *)
Fixpoint digits_point_two (seen : bool) (s : string) : bool :=
  match s with
  | EmptyString => false
  | String c r =>
      if is_digit c then digits_point_two true r
      else if Ascii.eqb c "." then seen && two_digits r
      else false
  end.

(** A decimal with exactly two decimal digits: an optional minus sign,
    one digit or more, a point, two digits. *)
Definition fixed2 (s : string) : bool :=
  match s with
  | EmptyString => false
  | String c r =>
      if Ascii.eqb c "-" then digits_point_two false r
      else digits_point_two false s
  end.

(** A currency amount as rendered: the prefix, then a decimal with two
    decimal digits. *)
Definition currency (prefix : list Piece) (t : Text) : Prop :=
  exists s, t = prefix ++ [Lit s] /\ fixed2 s = true.

(** A finite number of magnitude below 10^21. *)
Definition below_1e21 (x : number) : Prop :=
  match x with
  | Finite q => (Qabs q < inject_Z (10 ^ 21))%Q
  | _ => False
  end.

(** The total on display, when the result view is rendered. *)
Definition total_shown (fetch : Request -> Settled Response) (w : World)
  : option Text :=
  match App fetch (ui w) with
  | Container {| resultScroll := Some (Built r) |} => Some (totalValue r)
  | _ => None
  end.

(** The requests among some actions, in order. *)
Fixpoint requests (h : list Action) : list Request :=
  match h with
  | [] => []
  | Fetch req :: k => req :: requests k
  | _ :: k => requests k
  end.

(** The texts of the codes the viewfinder reports along some inputs. *)
Fixpoint scans (l : list Input) : list string :=
  match l with
  | [] => []
  | (_, Scanned result) :: l' => Camera.data result :: scans l'
  | _ :: l' => scans l'
  end.

(** The task ends with [setLoading(false)]. *)
Definition ends_loading (t : Task) : Prop :=
  exists before, t = before ++ [Do (SetLoading false)].

(** Along the run a code is reported only when no task is pending: the
    user does not scan while a fetch is in flight. *)
Fixpoint scans_when_idle (w : World) (l : list Input) : Prop :=
  match l with
  | [] => True
  | (fetch, e) :: l' =>
      match step fetch w e with
      | Some w' =>
          match e with
          | Scanned _ => pending w = []
          | _ => True
          end
          /\ scans_when_idle w' l'
      | None => True
      end
  end.

(** The actions by which a fetch ends: a failure with its message, or
    the invoice. *)
Definition outcome_actions (acts : list Action) : Prop :=
  (exists label what msg,
     acts = [ConsoleError label what; SetError (Some msg); SetLoading false])
  \/ (exists data,
        acts = [ConsoleLog "Invoice:" (LogInvoice data);
                SetInvoice data; SetLoading false]).

(** What is pending of a fetch: its last actions, at once or after one
    more wait. *)
Inductive outcome_task : Task -> Prop :=
| outcome_now acts : outcome_actions acts -> outcome_task (map Do acts)
| outcome_later acts :
    outcome_actions acts -> outcome_task (Suspend :: map Do acts).

(** With one fetch at a time: nothing is pending and [invoice] and
    [error] are not both set, or only the permission request or one
    fetch is pending and both are [null]. *)
Definition one_at_a_time (w : World) : Prop :=
  (pending w = [] /\ (invoice (ui w) = None \/ error (ui w) = None))
  \/ (invoice (ui w) = None /\ error (ui w) = None
      /\ ((exists b, pending w = [[Do (SetHasPermission (Some b))]])
          \/ (exists t, pending w = [t] /\ outcome_task t))).

(** The value of a digit. *)
Definition digit_value (c : ascii) : N := N.of_nat (nat_of_ascii c - 48).

(** The number that [acc], followed by the digits [s], denotes. *)
Fixpoint read_digits (acc : N) (s : string) : N :=
  match s with
  | EmptyString => acc
  | String c r => read_digits (10 * acc + digit_value c) r
  end.

(** The string without its points. *)
Fixpoint without_point (s : string) : string :=
  match s with
  | EmptyString => EmptyString
  | String c r =>
      if Ascii.eqb c "." then without_point r else String c (without_point r)
  end.

(** The amount in hundredths that a decimal with two decimal digits
    denotes: its digits read as one integer, with its sign. *)
Definition hundredths (s : string) : Z :=
  match s with
  | EmptyString => 0
  | String c r =>
      if Ascii.eqb c "-" then (- Z.of_N (read_digits 0 (without_point r)))%Z
      else Z.of_N (read_digits 0 (without_point s))
  end.

(** * Scenarios *)

(** The double nearest to 19.9. *)
Definition n19_9 : number := Finite (2800676018271027 # 140737488355328).

(** The invoice of scenario D, at the declared type and as the value
    the body parses to. *)
Definition mercado_x_invoice : Invoice :=
  {| loja := "Mercado X"; cnpj := "00.000.000/0001-00";
     data_emissao := "2024-01-01"; total := n19_9;
     itens := [{| descricao := "Arroz"; quantidade := Finite 1%Q;
                  valor_unitario := n19_9; valor_total := n19_9 |}] |}.

Definition mercado_x : Value := invoice_json mercado_x_invoice.

(** The backend answers with a total too large for a double: the JSON
    number 1e999 is read as [Infinity]. *)
Definition overflowing : Value :=
  invoice_json
    {| loja := "Mercado X"; cnpj := "00.000.000/0001-00";
       data_emissao := "2024-01-01"; total := Infinity false;
       itens := [] |}.

(** The backend of scenario D: status 200 and the invoice of Mercado X. *)
Definition backend_up : Request -> Settled Response :=
  fun _ => Fulfilled {| status := 200; text := Fulfilled "{...}";
                        json := Fulfilled (Some mercado_x) |}.

(** The backend of scenario E: status 500. *)
Definition backend_500 : Request -> Settled Response :=
  fun _ => Fulfilled {| status := 500; text := Fulfilled "Internal Server Error";
                        json := Rejected (SyntaxError "Unexpected token") |}.

(** A backend that answers 200 with a body that is not JSON. *)
Definition backend_not_json : Request -> Settled Response :=
  fun _ => Fulfilled {| status := 200; text := Fulfilled "<html>";
                        json := Rejected (SyntaxError "JSON Parse error") |}.

Definition backend_overflowing : Request -> Settled Response :=
  fun _ => Fulfilled {| status := 200; text := Fulfilled "{...}";
                        json := Fulfilled (Some overflowing) |}.

(** A backend that answers 200 with the body [null]. *)
Definition backend_null : Request -> Settled Response :=
  fun _ => Fulfilled {| status := 200; text := Fulfilled "null";
                        json := Fulfilled None |}.

(** A backend that answers 200 with the body [{}]. *)
Definition backend_empty_object : Request -> Settled Response :=
  fun _ => Fulfilled {| status := 200; text := Fulfilled "{}";
                        json := Fulfilled (Some (VObject [])) |}.

(** Scenario F: the host is unreachable. *)
Definition network_down : Request -> Settled Response :=
  fun _ => Rejected (TypeError "Network request failed").

Definition granted : Settled Camera.PermissionResponse :=
  Fulfilled {| Camera.status := "granted" |}.

Definition qr (payload : string) : Camera.BarcodeScanningResult :=
  {| Camera.type := "qr"; Camera.data := payload |}.

(** A state in which [error] holds the empty string. *)
Definition empty_error : State :=
  {| hasPermission := Some true; isScanning := false; rawUrl := None;
     invoice := None; loading := false; error := Some EmptyString |}.

(** The state of scenario D on display: an invoice, nothing loading. *)
Definition showing_invoice : World :=
  {| ui := {| hasPermission := Some true; isScanning := false;
              rawUrl := Some "https://example/nfce?x=1";
              invoice := Some mercado_x; loading := false; error := None |};
     pending := []; history := [] |}.

(** The screen of scenario C before the code is read: the permission is
    granted and a scan is going on. *)
Definition scanning : World :=
  {| ui := {| hasPermission := Some true; isScanning := true; rawUrl := None;
              invoice := None; loading := false; error := None |};
     pending := [];
     history := [RequestCameraPermissions; SetHasPermission (Some true);
                 SetIsScanning true] |}.

(** The permission is granted and the user starts a scan. *)
Definition scan_started : list Input :=
  [(backend_up, Settle 0); (backend_up, Press)].

(** The permission is granted, a code is scanned and its fetch runs to
    its end. *)
Definition scan_and_fetch (fetch : Request -> Settled Response)
  : list Input :=
  [(fetch, Settle 0); (fetch, Press);
   (fetch, Scanned (qr "https://example/nfce?x=1"));
   (fetch, Settle 0); (fetch, Settle 0)].

(** The permission is granted; a first code is scanned and its fetch is in
    flight; the user scans a second code while the network is down; the
    first fetch completes with an invoice, then the second one fails. *)
Definition second_scan_during_fetch : list Input :=
  [(backend_up, Settle 0);
   (backend_up, Press); (backend_up, Scanned (qr "https://example/nfce?x=1"));
   (network_down, Press); (network_down, Scanned (qr "https://example/nfce?x=2"));
   (backend_up, Settle 0); (backend_up, Settle 0);
   (network_down, Settle 0)].

(** As before, but the second fetch is answered with status 500. *)
Definition second_scan_gets_500 : list Input :=
  [(backend_up, Settle 0);
   (backend_up, Press); (backend_up, Scanned (qr "https://example/nfce?x=1"));
   (backend_500, Press); (backend_500, Scanned (qr "https://example/nfce?x=2"));
   (backend_up, Settle 0); (backend_up, Settle 0);
   (backend_500, Settle 0); (backend_500, Settle 0)].


(** An error on display with an invoice behind it. *)
Definition error_over_invoice : State :=
  {| hasPermission := Some true; isScanning := false;
     rawUrl := Some "https://example/nfce?x=2"; invoice := Some mercado_x;
     loading := false; error := Some MSG_CONNECTION |}.

(** The platform answers "denied". *)
Definition denied : Settled Camera.PermissionResponse :=
  Fulfilled {| Camera.status := "denied" |}.

(** One scan after the other, each fetch done before the next scan. *)
Definition two_scans_in_turn : list Input :=
  scan_and_fetch backend_up
  ++ [(network_down, Press);
      (network_down, Scanned (qr "https://example/nfce?x=2"));
      (network_down, Settle 0)].

(** * Properties *)

(** ** Running tasks *)

Lemma run_task_spec t s h :
  run_task t s h = (apply_all (first_run t) s, h ++ first_run t, continuation t).
Proof.
  revert s h; induction t as [|[a|] k IH]; intros s h; simpl.
  - now rewrite app_nil_r.
  - rewrite IH. now rewrite <- app_assoc.
  - now rewrite app_nil_r.
Qed.

Lemma run_alone_spec t s : run_alone t s = apply_all (actions_of t) s.
Proof.
  revert s; induction t as [|[a|] k IH]; intros s; simpl; auto.
Qed.

Lemma fetches_app h k : fetches (h ++ k) = fetches h + fetches k.
Proof.
  induction h as [|a h IH]; simpl; auto.
  destruct a; simpl; auto.
Qed.

(** ** The paths of [fetchNFCe] *)

Lemma fetchNFCe_task fetch url :
  fst (fetchNFCe fetch url)
  = prelude url ++ Suspend :: epilogue (fetch (request_for url)).
Proof.
  unfold fetchNFCe, epilogue.
  destruct (fetch (request_for url)) as [res|e]; [|reflexivity].
  cbn. destruct (ok res); cbn.
  - destruct (json res); reflexivity.
  - destruct (text res); reflexivity.
Qed.

(** The promise of [fetchNFCe] never rejects. *)
Lemma fetchNFCe_never_throws fetch url e :
  snd (fetchNFCe fetch url) <> Thrown e.
Proof.
  unfold fetchNFCe.
  destruct (fetch (request_for url)) as [res|e']; [|discriminate].
  cbn. destruct (ok res); cbn.
  - destruct (json res); discriminate.
  - destruct (text res); discriminate.
Qed.

Lemma messages_differ : MSG_PROCESSING <> MSG_CONNECTION.
Proof. discriminate. Qed.

(** After the request, [fetchNFCe] acts in one piece: either at once when
    the promise of [fetch] has rejected, or after the body has been read. *)
Lemma settles_at_once fetch url :
  let k := continuation (fst (fetchNFCe fetch url)) in
  k = map Do (actions_of k) \/ k = Suspend :: map Do (actions_of k).
Proof.
  rewrite fetchNFCe_task. cbn. unfold epilogue.
  destruct (fetch (request_for url)) as [res|e]; [right|left; reflexivity].
  destruct (ok res); [destruct (json res)|destruct (text res)]; reflexivity.
Qed.

(** C3.  Every call of [fetchNFCe], whatever the outcome, first sets
    [loading] to true and clears [error] and [invoice], in that order and
    before it issues the request; and the last thing it does on every
    path is to set [loading] to false. *)
Theorem fetch_brackets_loading (fetch : Request -> Settled Response)
    (url : string) :
  let t := fst (fetchNFCe fetch url) in
  first_run t
  = [SetLoading true; SetError None; SetInvoice None; Fetch (request_for url)]
  /\ (forall s,
        let s1 := apply_all (first_run t) s in
        loading s1 = true /\ error s1 = None /\ invoice s1 = None)
  /\ (exists before,
        continuation t = before ++ [Do (SetLoading false)]
        /\ fetches (actions_of before) = 0)
  /\ (forall s, loading (run_alone (continuation t) s) = false)
  /\ (forall s, loading (run_alone t s) = false).
Proof.
  cbv zeta. rewrite fetchNFCe_task.
  split; [reflexivity|].
  split; [intros s; cbn; auto|].
  cbn. unfold epilogue, failed.
  destruct (fetch (request_for url)) as [res|e].
  - destruct (ok res); [destruct (json res) as [data|e]|destruct (text res) as [body|e]].
    all: split; [eexists (_ :: _ :: _ :: nil); split; reflexivity|].
    all: split; intros s; reflexivity.
  - split; [eexists (_ :: _ :: nil); split; reflexivity|].
    split; intros s; reflexivity.
Qed.

(** C6, as stated, fails: a fetch answered with status 500 ends with the
    processing message in [error], and [invoice] holds what another
    fetch, completed while this one was in flight, has put there. *)
Lemma stale_invoice_survives_error :
  option_map
    (fun w => (invoice (ui w), error (ui w), loading (ui w), pending w))
    (run (mount granted) second_scan_gets_500)
  = Some (Some mercado_x, Some MSG_PROCESSING, false, []).
Proof. reflexivity. Qed.

(** C6, amended.  When the request completes with a status outside
    200..299, its body read, [fetchNFCe] logs the body, sets [error] to
    the processing message and [loading] to false, and does nothing else:
    the body reaches the console only, and [invoice] stays as it was,
    which is [null] when no other fetch has completed in between. *)
Theorem non_success_status_sets_processing_error
    (fetch : Request -> Settled Response) (url : string)
    (res : Response) (body : string) :
  fetch (request_for url) = Fulfilled res ->
  ok res = false ->
  text res = Fulfilled body ->
  let t := fst (fetchNFCe fetch url) in
  continuation (continuation t)
  = [Do (ConsoleError "Erro backend:" (LogText body));
     Do (SetError (Some MSG_PROCESSING)); Do (SetLoading false)]
  /\ (forall s,
        let s' := run_alone (continuation t) s in
        error s' = Some MSG_PROCESSING /\ invoice s' = invoice s
        /\ loading s' = false)
  /\ (forall s,
        let s' := run_alone t s in
        error s' = Some MSG_PROCESSING /\ invoice s' = None).
Proof.
  intros Hnet Hok Hbody. cbv zeta. rewrite fetchNFCe_task, Hnet.
  cbn. rewrite Hok, Hbody.
  repeat split.
Qed.

Lemma non_success_status_witness :
  let t := fst (fetchNFCe backend_500 "https://example/nfce?x=1") in
  continuation (continuation t)
  = [Do (ConsoleError "Erro backend:" (LogText "Internal Server Error"));
     Do (SetError (Some MSG_PROCESSING)); Do (SetLoading false)]
  /\ (forall s,
        let s' := run_alone (continuation t) s in
        error s' = Some MSG_PROCESSING /\ invoice s' = invoice s
        /\ loading s' = false)
  /\ (forall s,
        let s' := run_alone t s in
        error s' = Some MSG_PROCESSING /\ invoice s' = None).
Proof.
  apply (non_success_status_sets_processing_error backend_500
           "https://example/nfce?x=1"
           {| status := 500; text := Fulfilled "Internal Server Error";
              json := Rejected (SyntaxError "Unexpected token") |}
           "Internal Server Error"); reflexivity.
Defined.

(** C7, as stated, fails: the request completes with status 200, the body
    does not parse, and [error] is the connection message. *)
Lemma completed_request_reports_connection_failure :
  (exists res,
     backend_not_json (request_for "https://example/nfce?x=1") = Fulfilled res
     /\ status res = 200 /\ ok res = true)
  /\ error (run_alone (fst (fetchNFCe backend_not_json "https://example/nfce?x=1"))
              initial)
     = Some MSG_CONNECTION.
Proof.
  split; [eexists; repeat split|reflexivity].
Qed.

(** An action that is none of the listed ones. *)
Ltac no_such_action H :=
  repeat (destruct H as [H|H];
          [first [discriminate H
                 |injection H as H; exact (messages_differ H)]|]);
  exact H.

(** An outcome of the request that contradicts the one at hand. *)
Ltac no_such_outcome H :=
  destruct H as [[? H]|[(? & ? & H & ? & ?)|(? & ? & H & ? & ?)]];
  [discriminate H| |]; injection H as <-; congruence.

(** C7, amended.  [fetchNFCe] sets [error] to the connection message
    exactly when something throws inside its [try]: the promise of
    [fetch] rejects (the request did not complete), or the response
    arrived and the promise of [res.text()] (status outside 200..299) or
    of [res.json()] (status in 200..299) rejects, the latter also when
    the body is there and is not JSON.  One request is issued per call,
    whatever the outcome, and a rejected [fetch] always ends with the
    connection message. *)
Theorem connection_message_iff_exception (fetch : Request -> Settled Response)
    (url : string) :
  let t := fst (fetchNFCe fetch url) in
  (In (SetError (Some MSG_CONNECTION)) (actions_of t) <->
     (exists e, fetch (request_for url) = Rejected e)
     \/ (exists res e, fetch (request_for url) = Fulfilled res
                       /\ ok res = false /\ text res = Rejected e)
     \/ (exists res e, fetch (request_for url) = Fulfilled res
                       /\ ok res = true /\ json res = Rejected e))
  /\ fetches (actions_of t) = 1
  /\ (forall e s, fetch (request_for url) = Rejected e ->
        error (run_alone t s) = Some MSG_CONNECTION).
Proof.
  cbv zeta. rewrite fetchNFCe_task. unfold epilogue, failed.
  destruct (fetch (request_for url)) as [res|e].
  - destruct (ok res) eqn:Hok;
      [destruct (json res) as [data|e] eqn:Hbody
      |destruct (text res) as [body|e] eqn:Hbody].
    all: split; [|split; [reflexivity|discriminate]].
    all: cbn; split; intros H.
    all: try solve [right; right; now exists res, e].
    all: try solve [right; left; now exists res, e].
    all: try solve [repeat (first [left; reflexivity | right])].
    all: try solve [exfalso; no_such_action H].
    all: exfalso; no_such_outcome H.
  - split; [|split; [reflexivity|intros; reflexivity]].
    cbn. split; intros H.
    + left; now exists e.
    + repeat (first [left; reflexivity | right]).
Qed.

(** ** Overlapping fetches *)

(** C2, as stated, fails: when two fetches overlap, every fetch has
    completed and both [invoice] and [error] are set; the fetch that
    completed last failed and [invoice] is not [null]. *)
Lemma overlapping_fetches_populate_both :
  option_map
    (fun w => (invoice (ui w), error (ui w), loading (ui w), pending w))
    (run (mount granted) second_scan_during_fetch)
  = Some (Some mercado_x, Some MSG_CONNECTION, false, []).
Proof. reflexivity. Qed.

(** A body that is the JSON text [null] is a success that sets neither
    cell: the fetch ends with [invoice] and [error] both [null], and the
    screen shows the placeholder. *)
Example null_body_sets_neither :
  option_map
    (fun w => (invoice (ui w), error (ui w), loading (ui w), pending w,
               shown_by (App backend_null (ui w))))
    (run (mount granted) (scan_and_fetch backend_null))
  = Some (None, None, false, [], ShowsContainer [EmptyPlaceholder]).
Proof. reflexivity. Qed.

(** C2, amended.  A call of [fetchNFCe] leaves [invoice] and [error]
    [null] when it issues its request; and when they still are [null] as
    it runs on (no other fetch has completed meanwhile), then on success
    (status in 200..299 and a body that parses) it ends with the parsed
    body in [invoice], whatever its shape ([null] when the body is
    [null]), and [error] [null], in every other case with [error] set to
    one of the two messages and [invoice] [null]: never with both. *)
Theorem fetch_sets_invoice_or_error (fetch : Request -> Settled Response)
    (url : string) (s : State) :
  invoice s = None ->
  error s = None ->
  let t := fst (fetchNFCe fetch url) in
  let s' := run_alone (continuation t) s in
  (forall s0,
     invoice (apply_all (first_run t) s0) = None
     /\ error (apply_all (first_run t) s0) = None)
  /\ (forall res data,
        fetch (request_for url) = Fulfilled res -> ok res = true ->
        json res = Fulfilled data ->
        invoice s' = data /\ error s' = None)
  /\ ((forall res data,
         fetch (request_for url) = Fulfilled res -> ok res = true ->
         json res = Fulfilled data -> False) ->
      invoice s' = None
      /\ (error s' = Some MSG_PROCESSING \/ error s' = Some MSG_CONNECTION))
  /\ (invoice s' = None \/ error s' = None).
Proof.
  intros Hinv Herr. cbv zeta. rewrite fetchNFCe_task.
  split; [intros s0; split; reflexivity|].
  cbn. unfold epilogue, failed.
  destruct (fetch (request_for url)) as [res|e].
  - destruct (ok res) eqn:Hok;
      [destruct (json res) as [data|e] eqn:Hbody
      |destruct (text res) as [body|e] eqn:Hbody]; cbn.
    + split; [intros r d Hr _ Hd; injection Hr as <-|].
      { rewrite Hbody in Hd. injection Hd as <-. auto. }
      split; [intros H; destruct (H res data eq_refl Hok Hbody)|auto].
    + split; [intros r d Hr _ Hd; injection Hr as <-; congruence|].
      split; [intros _|]; auto.
    + split; [intros r d Hr Ho Hd; injection Hr as <-; congruence|].
      split; [intros _|]; auto.
    + split; [intros r d Hr Ho Hd; injection Hr as <-; congruence|].
      split; [intros _|]; auto.
  - cbn. split; [intros r d Hr; discriminate Hr|].
    split; [intros _|]; auto.
Qed.

Lemma fetch_sets_invoice_or_error_witness :
  let t := fst (fetchNFCe backend_up "https://example/nfce?x=1") in
  let s' := run_alone (continuation t) initial in
  (forall s0,
     invoice (apply_all (first_run t) s0) = None
     /\ error (apply_all (first_run t) s0) = None)
  /\ (forall res data,
        backend_up (request_for "https://example/nfce?x=1") = Fulfilled res ->
        ok res = true -> json res = Fulfilled data ->
        invoice s' = data /\ error s' = None)
  /\ ((forall res data,
         backend_up (request_for "https://example/nfce?x=1") = Fulfilled res ->
         ok res = true -> json res = Fulfilled data -> False) ->
      invoice s' = None
      /\ (error s' = Some MSG_PROCESSING \/ error s' = Some MSG_CONNECTION))
  /\ (invoice s' = None \/ error s' = None).
Proof.
  apply (fetch_sets_invoice_or_error backend_up "https://example/nfce?x=1"
           initial); reflexivity.
Defined.

(** ** The invoice card *)

Lemma call_toFixed_built f j t :
  call_toFixed f j = Built t ->
  exists x, j = Some (VNumber x) /\ t = toFixed f x.
Proof.
  destruct j as [[b|x|str|items|fields]|]; try discriminate.
  intros [= <-]. now exists x.
Qed.

Lemma map_items_built {A : Type} (f : Json -> Rendered A) items l :
  map_items f items = Built l ->
  List.length l = List.length items
  /\ (forall k a, nth_error l k = Some a ->
       exists item, nth_error items k = Some item /\ f item = Built a).
Proof.
  revert l; induction items as [|item rest IH]; intros l; cbn.
  - intros [= <-]. split; [reflexivity|]. intros [|k] a; discriminate.
  - destruct (f item) as [b|] eqn:Hitem; [|discriminate].
    destruct (map_items f rest) as [l'|]; [|discriminate].
    intros [= <-]. destruct (IH l' eq_refl) as [Hlen Hnth].
    split; [cbn; now rewrite Hlen|].
    intros [|k] a; cbn.
    + intros [= <-]. now exists item.
    + apply Hnth.
Qed.

(** A card that was built shows an element that is not [null], whose
    two values are numbers. *)
Lemma renderItem_built item card :
  renderItem item = Built card ->
  exists v q u t,
    item = Some v
    /\ child (get v "descricao") = Built (itemDescription card)
    /\ child (get v "quantidade") = Built q
    /\ get v "valor_unitario" = Some (VNumber u)
    /\ get v "valor_total" = Some (VNumber t)
    /\ itemSubText card
       = Lit "Qtd: " :: q ++ Lit " • Vl. unit: R$" :: Lit " " :: toFixed 2 u
    /\ itemTotal card = Lit "R$ " :: toFixed 2 t.
Proof.
  unfold renderItem. destruct item as [v|]; [|discriminate].
  destruct (child (get v "descricao")) as [d|] eqn:Hd; [|discriminate].
  destruct (child (get v "quantidade")) as [q|] eqn:Hq; [|discriminate].
  destruct (call_toFixed 2 (get v "valor_unitario")) as [unit|] eqn:Hu;
    [|discriminate].
  destruct (call_toFixed 2 (get v "valor_total")) as [line|] eqn:Ht;
    [|discriminate].
  intros [= <-].
  apply call_toFixed_built in Hu as (u & Hu & ->).
  apply call_toFixed_built in Ht as (t & Ht & ->).
  exists v, q, u, t. cbn. repeat split; assumption.
Qed.

(** An invoice card that was built shows a value whose total is a
    number and whose items are an array. *)
Lemma renderResult_built rawUrl v r :
  renderResult rawUrl v = Built r ->
  exists x items,
    get v "total" = Some (VNumber x)
    /\ get v "itens" = Some (VArray items)
    /\ totalValue r = Lit "R$ " :: toFixed 2 x
    /\ map_items renderItem items = Built (itemCards r)
    /\ rawUrlBox r
       = match rawUrl with
         | Some u => when (truthy u) ([Lit "QR lido (URL NFC-e):"], [Lit u])
         | None => None
         end.
Proof.
  unfold renderResult.
  destruct (child (get v "loja")) as [name|]; [|discriminate].
  destruct (child (get v "cnpj")) as [number|]; [|discriminate].
  destruct (if truthy_json (get v "data_emissao")
            then child (get v "data_emissao") else Built []) as [date|];
    [|discriminate].
  destruct (call_toFixed 2 (get v "total")) as [amount|] eqn:Ht;
    [|discriminate].
  destruct (call_map renderItem (get v "itens")) as [cards|] eqn:Hi;
    [|discriminate].
  intros [= <-].
  apply call_toFixed_built in Ht as (x & Ht & ->).
  unfold call_map in Hi.
  destruct (get v "itens") as [[b|y|str|items|fields]|]; try discriminate.
  exists x, items. cbn. repeat split; assumption.
Qed.

(** The slot of the invoice card is filled from the cell [invoice], when
    it holds a truthy value and nothing is loading and no error is set. *)
Lemma App_result fetch s m r :
  App fetch s = Container m ->
  resultScroll m = Some r ->
  exists v,
    invoice s = Some v /\ truthy_value v = true
    /\ loading s = false /\ truthy_or_null (error s) = false
    /\ r = renderResult (rawUrl s) v.
Proof.
  unfold App. destruct (hasPermission s) as [[|]|]; try discriminate.
  intros [= <-]. cbn. destruct (invoice s) as [v|]; [|discriminate].
  unfold when.
  destruct (loading s), (truthy_or_null (error s));
    destruct (truthy_value v) eqn:Hv; cbn; try discriminate.
  intros [= <-]. now exists v.
Qed.

Lemma renderItem_declared item :
  renderItem (item_json item) = Built (itemCard item).
Proof. reflexivity. Qed.

Lemma map_items_declared l :
  map_items renderItem (map item_json l) = Built (map itemCard l).
Proof.
  induction l as [|item l IH]; [reflexivity|].
  cbn [map map_items]. now rewrite renderItem_declared, IH.
Qed.

(** For a value of the declared shape the card is built, and is the
    card of the invoice. *)
Lemma renderResult_declared rawUrl i :
  renderResult rawUrl (invoice_json i) = Built (invoiceResult rawUrl i).
Proof.
  unfold renderResult, invoiceResult.
  change (get (invoice_json i) "loja") with (Some (VString (loja i))).
  change (get (invoice_json i) "cnpj") with (Some (VString (cnpj i))).
  change (get (invoice_json i) "data_emissao")
    with (Some (VString (data_emissao i))).
  change (get (invoice_json i) "total") with (Some (VNumber (total i))).
  change (get (invoice_json i) "itens")
    with (Some (VArray (map item_json (itens i)))).
  cbn [child child_value call_toFixed call_map truthy_json truthy_value].
  rewrite map_items_declared.
  destruct (truthy (data_emissao i)); reflexivity.
Qed.


(** ** The renderer *)

(** On the declared type [Invoice | null] an invoice is set exactly when
    the cell is not [null]. *)
Lemma invoice_set_declared s (o : option Invoice) :
  invoice s = option_map invoice_json o -> invoice_set s = not_null o.
Proof. unfold invoice_set. intros ->. now destruct o. Qed.


(** C5, as stated, fails: while a scan is going on and nothing has been
    fetched yet, a state the screen reaches, the main screen shows none
    of the four status contents. *)
Lemma scanning_shows_no_status :
  option_map
    (fun w => (hasPermission (ui w), isScanning (ui w),
               shown_by (App backend_up (ui w))))
    (run (mount granted) scan_started)
  = Some (Some true, true, ShowsContainer []).
Proof. reflexivity. Qed.

(** C5, amended.  With the permission granted the main screen shows at
    most one of the four status contents; it shows none exactly when a
    scan is going on with nothing loading, no error text and no invoice
    (the two cells falsy), and exactly one otherwise. *)
Theorem at_most_one_status (fetch : Request -> Settled Response) (s : State) :
  hasPermission s = Some true ->
  exists m,
    App fetch s = Container m
    /\ List.length (status_contents m) <= 1
    /\ (status_contents m = [] <->
        isScanning s = true /\ loading s = false
        /\ truthy_or_null (error s) = false
        /\ truthy_json (invoice s) = false)
    /\ (scannerContainer m <> None <-> isScanning s = true).
Proof.
  intros Hperm. unfold App. rewrite Hperm. eexists. split; [reflexivity|].
  unfold status_contents. cbn.
  destruct (loading s), (error s) as [[|c e]|], (invoice s) as [v|],
    (isScanning s); cbn; try destruct (truthy_value v);
    cbn; repeat split; intros; try lia; try tauto; try discriminate;
    try easy.
Qed.

Lemma at_most_one_status_witness :
  exists m,
    App backend_up empty_error = Container m
    /\ List.length (status_contents m) <= 1
    /\ (status_contents m = [] <->
        isScanning empty_error = true /\ loading empty_error = false
        /\ truthy_or_null (error empty_error) = false
        /\ truthy_json (invoice empty_error) = false)
    /\ (scannerContainer m <> None <-> isScanning empty_error = true).
Proof.
  apply (at_most_one_status backend_up empty_error). reflexivity.
Defined.

(** ** Invariants of the transition system *)

Lemma start_spec t w :
  start t w
  = {| ui := apply_all (first_run t) (ui w);
       pending := pending w ++ park (continuation t);
       history := history w ++ first_run t |}.
Proof. unfold start. now rewrite run_task_spec. Qed.

Lemma resume_spec i w :
  resume i w
  = match nth_error (pending w) i with
    | None => None
    | Some t =>
        Some {| ui := apply_all (first_run t) (ui w);
                pending := firstn i (pending w) ++ park (continuation t)
                           ++ skipn (S i) (pending w);
                history := history w ++ first_run t |}
    end.
Proof.
  unfold resume. destruct (nth_error (pending w) i); [|reflexivity].
  now rewrite run_task_spec.
Qed.

Lemma quiet_continuation t : quiet_task t -> quiet_task (continuation t).
Proof.
  induction 1 as [|[a|] k Ha Hk IH]; simpl; auto. constructor.
Qed.

Lemma quiet_park k : quiet_task k -> Forall quiet_task (park k).
Proof. destruct k; simpl; auto. Qed.

(** A quiet task leaves the permission and the scan session alone, keeps
    [error] among the messages and issues no request. *)
Lemma quiet_first_run t s :
  quiet_task t ->
  let s' := apply_all (first_run t) s in
  hasPermission s' = hasPermission s
  /\ isScanning s' = isScanning s
  /\ rawUrl s' = rawUrl s
  /\ (error_ok (error s) -> error_ok (error s'))
  /\ fetches (first_run t) = 0.
Proof.
  intros Ht; revert s.
  induction Ht as [|[a|] k Ha Hk IH]; intros s; cbn; try tauto.
  specialize (IH (apply a s)). cbn in IH.
  destruct IH as (Hp & Hs & Hr & He & Hf).
  unfold apply_all in *.
  rewrite Hp, Hs, Hr.
  destruct a; cbn in Ha |- *; try contradiction; repeat split; auto.
Qed.

Lemma Forall_firstn_skipn {A : Type} (P : A -> Prop) (l : list A) i :
  Forall P l -> Forall P (firstn i l) /\ Forall P (skipn (S i) l).
Proof.
  intros H. rewrite <- (firstn_skipn i l) in H.
  apply Forall_app in H as [H1 H2]. split; [assumption|].
  destruct (skipn i l) as [|x r] eqn:E.
  - replace (skipn (S i) l) with (@nil A); [constructor|].
    symmetry. apply skipn_all2. 
    assert (List.length (skipn i l) = 0) as Hl by now rewrite E.
    rewrite length_skipn in Hl. lia.
  - replace (skipn (S i) l) with r; [now inversion H2|].
    change (S i) with (1 + i). rewrite <- skipn_skipn. now rewrite E.
Qed.

Lemma epilogue_quiet answer : quiet_task (epilogue answer).
Proof.
  unfold epilogue, failed, quiet_task.
  destruct answer as [res|e]; [destruct (ok res);
    [destruct (json res)|destruct (text res)]|].
  all: repeat (apply Forall_cons || apply Forall_nil).
  all: cbn; unfold error_ok; auto.
Qed.

Lemma handleBarcodeScanned_task fetch result :
  fst (handleBarcodeScanned fetch result)
  = [Do (SetIsScanning false); Do (SetRawUrl (Some (Camera.data result)));
     Do (ConsoleLog "QR LIDO:" (LogText (Camera.data result)))]
    ++ fst (fetchNFCe fetch (Camera.data result)).
Proof.
  unfold handleBarcodeScanned, call_dropped.
  destruct (fetchNFCe fetch (Camera.data result)) as [l c]. reflexivity.
Qed.

(** The control takes a press when the main screen is rendered, and
    toggles the scan session. *)
Lemma step_Press fetch w :
  step fetch w Press
  = match hasPermission (ui w) with
    | Some true =>
        Some (start [Do (SetIsScanning (negb (isScanning (ui w))))] w)
    | _ => None
    end.
Proof.
  unfold step, App.
  destruct (hasPermission (ui w)) as [[|]|]; try reflexivity.
  cbn. now destruct (isScanning (ui w)).
Qed.

(** The viewfinder reports a code when it is rendered: on the main
    screen, while a scan is going on. *)
Lemma step_Scanned fetch w result :
  step fetch w (Scanned result)
  = match hasPermission (ui w) with
    | Some true =>
        if isScanning (ui w)
        then Some (start (fst (handleBarcodeScanned fetch result)) w)
        else None
    | _ => None
    end.
Proof.
  unfold step, App.
  destruct (hasPermission (ui w)) as [[|]|]; try reflexivity.
  cbn. now destruct (isScanning (ui w)).
Qed.

Lemma mount_inv answer : Inv (mount answer).
Proof.
  unfold mount. rewrite start_spec.
  destruct answer as [r|e]; cbn.
  - split; [left; reflexivity|left]. split; [reflexivity|right]. eexists; reflexivity.
  - split; [left; reflexivity|left]. split; [reflexivity|left]. reflexivity.
Qed.

Lemma step_inv fetch w e w' : Inv w -> step fetch w e = Some w' -> Inv w'.
Proof.
  intros [Herr Hphase] Hstep. destruct e as [|result|i].
  - rewrite step_Press in Hstep.
    destruct (hasPermission (ui w)) as [[|]|] eqn:Hp; try discriminate.
    destruct Hphase as [[Hn _]|[_ Hq]]; [discriminate|].
    injection Hstep as <-. rewrite start_spec. cbn. rewrite app_nil_r, Hp.
    split; [assumption|right; split; [discriminate|assumption]].
  - rewrite step_Scanned in Hstep.
    destruct (hasPermission (ui w)) as [[|]|] eqn:Hp; try discriminate.
    destruct Hphase as [[Hn _]|[_ Hq]]; [discriminate|].
    destruct (isScanning (ui w)); [|discriminate].
    injection Hstep as <-.
    rewrite start_spec, fetchNFCe_task.
    cbn. rewrite Hp.
    split; [left; reflexivity|right; split; [discriminate|]].
    apply Forall_app; split; [assumption|].
    apply quiet_park, epilogue_quiet.
  - cbn in Hstep. rewrite resume_spec in Hstep.
    destruct (nth_error (pending w) i) as [t|] eqn:Ht; [|discriminate].
    injection Hstep as <-. unfold Inv. cbn [ui pending history].
    destruct Hphase as [[Hn [Hnil|[b Hone]]]|[Hp Hq]].
    + rewrite Hnil in Ht. destruct i; discriminate.
    + rewrite Hone in Ht |- *.
      destruct i as [|i]; [|destruct i; discriminate].
      injection Ht as <-. cbn.
      split; [assumption|right; split; [discriminate|constructor]].
    + assert (quiet_task t) as Hqt.
      { apply nth_error_In in Ht.
        now apply (proj1 (Forall_forall _ _) Hq). }
      destruct (quiet_first_run t (ui w) Hqt) as (Hp' & _ & _ & He & _).
      split; [auto|right]. split; [now rewrite Hp'|].
      destruct (Forall_firstn_skipn quiet_task (pending w) i Hq).
      repeat (apply Forall_app; split); auto.
      apply quiet_park, quiet_continuation, Hqt.
Qed.

Lemma reachable_inv w : reachable w -> Inv w.
Proof.
  induction 1 as [answer|w fetch e w' _ IH Hstep].
  - apply mount_inv.
  - eapply step_inv; eauto.
Qed.

Lemma run_reachable w l w' : reachable w -> run w l = Some w' -> reachable w'.
Proof.
  revert w; induction l as [|[fetch e] l IH]; intros w Hw Hrun; cbn in Hrun.
  - now injection Hrun as <-.
  - destruct (step fetch w e) as [w1|] eqn:Hstep; [|discriminate].
    eapply IH; [|eassumption]. econstructor; eassumption.
Qed.

(** On every state the screen reaches, [error] is [null] or one of the
    two messages, so the renderer's test of [error] is a test for [null]. *)
Lemma reachable_error w :
  reachable w -> error_ok (error (ui w)) /\ error (ui w) <> Some EmptyString.
Proof.
  intros Hw. destruct (reachable_inv w Hw) as [He _]. split; [assumption|].
  destruct He as [->|[->| ->]]; discriminate.
Qed.





(** ** The scan control *)

(** C9.  A press of the scan control, whichever of its two titles it
    shows, does one thing: it sets [isScanning] to the opposite value.
    The other five cells, and with them a result or an error on display,
    stay as they were, and nothing is left pending. *)
Theorem press_changes_scanning_only (fetch : Request -> Settled Response)
    (w w' : World) :
  step fetch w Press = Some w' ->
  (exists m,
     App fetch (ui w) = Container m
     /\ title (actions m)
        = (if isScanning (ui w) then "Cancelar leitura" else "Escanear Nota")
     /\ fst (onPress (actions m))
        = [Do (SetIsScanning (negb (isScanning (ui w))))])
  /\ isScanning (ui w') = negb (isScanning (ui w))
  /\ invoice (ui w') = invoice (ui w)
  /\ error (ui w') = error (ui w)
  /\ rawUrl (ui w') = rawUrl (ui w)
  /\ loading (ui w') = loading (ui w)
  /\ hasPermission (ui w') = hasPermission (ui w)
  /\ pending w' = pending w
  /\ history w' = history w ++ [SetIsScanning (negb (isScanning (ui w)))].
Proof.
  intros Hstep. split.
  - unfold step, App in *.
    destruct (hasPermission (ui w)) as [[|]|]; try discriminate.
    eexists; split; [reflexivity|]. cbn.
    destruct (isScanning (ui w)); split; reflexivity.
  - rewrite step_Press in Hstep.
    destruct (hasPermission (ui w)) as [[|]|] eqn:Hp; try discriminate.
    injection Hstep as <-. rewrite start_spec. cbn.
    rewrite app_nil_r. repeat split; auto.
Qed.

Lemma press_changes_scanning_only_witness :
  (exists m,
     App backend_up (ui showing_invoice) = Container m
     /\ title (actions m)
        = (if isScanning (ui showing_invoice)
           then "Cancelar leitura" else "Escanear Nota")
     /\ fst (onPress (actions m))
        = [Do (SetIsScanning (negb (isScanning (ui showing_invoice))))])
  /\ isScanning (ui (start [Do (SetIsScanning true)] showing_invoice))
     = negb (isScanning (ui showing_invoice))
  /\ invoice (ui (start [Do (SetIsScanning true)] showing_invoice))
     = invoice (ui showing_invoice)
  /\ error (ui (start [Do (SetIsScanning true)] showing_invoice))
     = error (ui showing_invoice)
  /\ rawUrl (ui (start [Do (SetIsScanning true)] showing_invoice))
     = rawUrl (ui showing_invoice)
  /\ loading (ui (start [Do (SetIsScanning true)] showing_invoice))
     = loading (ui showing_invoice)
  /\ hasPermission (ui (start [Do (SetIsScanning true)] showing_invoice))
     = hasPermission (ui showing_invoice)
  /\ pending (start [Do (SetIsScanning true)] showing_invoice)
     = pending showing_invoice
  /\ history (start [Do (SetIsScanning true)] showing_invoice)
     = history showing_invoice
       ++ [SetIsScanning (negb (isScanning (ui showing_invoice)))].
Proof.
  apply (press_changes_scanning_only backend_up showing_invoice
           (start [Do (SetIsScanning true)] showing_invoice)).
  reflexivity.
Defined.

(** ** The permission gate *)

Lemma permission_kept fetch w e w' :
  Inv w -> hasPermission (ui w) <> None -> step fetch w e = Some w' ->
  hasPermission (ui w') = hasPermission (ui w).
Proof.
  intros [_ Hphase] Hperm Hstep.
  destruct Hphase as [[Hn _]|[_ Hq]]; [contradiction|].
  destruct e as [|result|i].
  - rewrite step_Press in Hstep.
    destruct (hasPermission (ui w)) as [[|]|] eqn:Hp; try discriminate.
    injection Hstep as <-. rewrite start_spec. cbn. now rewrite Hp.
  - rewrite step_Scanned in Hstep.
    destruct (hasPermission (ui w)) as [[|]|] eqn:Hp; try discriminate.
    destruct (isScanning (ui w)); [|discriminate].
    injection Hstep as <-. rewrite start_spec, fetchNFCe_task. cbn.
    now rewrite Hp.
  - cbn in Hstep. rewrite resume_spec in Hstep.
    destruct (nth_error (pending w) i) as [t|] eqn:Ht; [|discriminate].
    injection Hstep as <-. cbn [ui].
    apply quiet_first_run.
    apply nth_error_In in Ht. now apply (proj1 (Forall_forall _ _) Hq).
Qed.

Lemma permission_kept_run w l w' :
  Inv w -> hasPermission (ui w) <> None -> run w l = Some w' ->
  hasPermission (ui w') = hasPermission (ui w).
Proof.
  revert w; induction l as [|[fetch e] l IH]; intros w Hinv Hperm Hrun;
    cbn in Hrun.
  - now injection Hrun as <-.
  - destruct (step fetch w e) as [w1|] eqn:Hstep; [|discriminate].
    pose proof (permission_kept fetch w e w1 Hinv Hperm Hstep) as Hkept.
    rewrite <- Hkept. apply IH; [eapply step_inv; eauto| |assumption].
    now rewrite Hkept.
Qed.

Lemma permission_requests_app h k :
  permission_requests (h ++ k) = permission_requests h + permission_requests k.
Proof.
  induction h as [|a h IH]; simpl; auto.
  destruct a; simpl; auto.
Qed.

Lemma quiet_requests_nothing t :
  quiet_task t -> permission_requests (first_run t) = 0.
Proof.
  induction 1 as [|[a|] k Ha Hk IH]; simpl; auto.
  destruct a; cbn in Ha |- *; auto; contradiction.
Qed.

(** Once the permission is known it is not asked for again. *)
Lemma permission_asked_once w l w' :
  Inv w -> hasPermission (ui w) <> None -> run w l = Some w' ->
  permission_requests (history w') = permission_requests (history w).
Proof.
  revert w; induction l as [|[fetch e] l IH]; intros w Hinv Hperm Hrun;
    cbn in Hrun.
  - now injection Hrun as <-.
  - destruct (step fetch w e) as [w1|] eqn:Hstep; [|discriminate].
    pose proof (permission_kept fetch w e w1 Hinv Hperm Hstep) as Hkept.
    rewrite (IH w1 (step_inv fetch w e w1 Hinv Hstep)
               ltac:(now rewrite Hkept) Hrun).
    clear IH Hrun Hkept. destruct Hinv as [_ [[Hn _]|[_ Hq]]]; [contradiction|].
    destruct e as [|result|i].
    + rewrite step_Press in Hstep.
      destruct (hasPermission (ui w)) as [[|]|]; try discriminate.
      injection Hstep as <-. rewrite start_spec. cbn.
      rewrite permission_requests_app. cbn. lia.
    + rewrite step_Scanned in Hstep.
      destruct (hasPermission (ui w)) as [[|]|]; try discriminate.
      destruct (isScanning (ui w)); [|discriminate].
      injection Hstep as <-. rewrite start_spec, fetchNFCe_task. cbn.
      rewrite permission_requests_app. cbn. lia.
    + cbn in Hstep. rewrite resume_spec in Hstep.
      destruct (nth_error (pending w) i) as [t|] eqn:Ht; [|discriminate].
      injection Hstep as <-. cbn [history].
      rewrite permission_requests_app, quiet_requests_nothing; [lia|].
      apply nth_error_In in Ht. now apply (proj1 (Forall_forall _ _) Hq).
Qed.

(** C10.  The screen mounts with the permission unknown and asks for it
    once; when the request resolves, [hasPermission] becomes
    [status === "granted"]: true exactly for the status "granted" and
    false for every other one; and whatever happens afterwards it keeps
    that value, so it is never unknown again, and the permission is not
    asked for a second time. *)
Theorem permission_granted_iff_status (fetch : Request -> Settled Response)
    (r : Camera.PermissionResponse) :
  hasPermission (ui (mount (Fulfilled r))) = None
  /\ permission_requests (history (mount (Fulfilled r))) = 1
  /\ exists w1,
       step fetch (mount (Fulfilled r)) (Settle 0) = Some w1
       /\ hasPermission (ui w1) = Some (Camera.status r =? "granted")%string
       /\ (hasPermission (ui w1) = Some true <-> Camera.status r = "granted")
       /\ (hasPermission (ui w1) = Some false <-> Camera.status r <> "granted")
       /\ (forall l w2, run w1 l = Some w2 ->
             hasPermission (ui w2) = hasPermission (ui w1)
             /\ hasPermission (ui w2) <> None
             /\ permission_requests (history w2) = 1).
Proof.
  split; [reflexivity|]. split; [reflexivity|].
  eexists. split; [reflexivity|]. cbn [ui start run_task apply hasPermission].
  split; [reflexivity|].
  split; [|split].
  - rewrite <- String.eqb_eq. split; [now intros [= ->]|now intros ->].
  - rewrite <- String.eqb_neq. split; [now intros [= ->]|now intros ->].
  - intros l w2 Hrun.
    pose proof (step_inv fetch _ (Settle 0) _ (mount_inv (Fulfilled r))
                  eq_refl) as Hinv.
    rewrite (permission_asked_once _ _ _ Hinv ltac:(discriminate) Hrun).
    apply (permission_kept_run _ _ _ Hinv) in Hrun; [|discriminate].
    rewrite Hrun. repeat split. discriminate.
Qed.

(** ** Scan sessions *)

(** Every fetch uses up a scan session: along a step the fetches issued
    so far, plus the session that is open, grow by a session started at
    most. *)
Lemma step_accounting fetch w e w' :
  Inv w -> step fetch w e = Some w' ->
  fetches (history w') + b2n (isScanning (ui w'))
  <= fetches (history w) + b2n (isScanning (ui w)) + b2n (starts_scan w e)
  /\ fetches (history w) <= fetches (history w').
Proof.
  intros [_ Hphase] Hstep. destruct e as [|result|i].
  - rewrite step_Press in Hstep.
    destruct (hasPermission (ui w)) as [[|]|]; try discriminate.
    injection Hstep as <-. rewrite start_spec. cbn.
    rewrite fetches_app. cbn. destruct (isScanning (ui w)); cbn; lia.
  - rewrite step_Scanned in Hstep.
    destruct (hasPermission (ui w)) as [[|]|]; try discriminate.
    destruct (isScanning (ui w)); [|discriminate].
    injection Hstep as <-. rewrite start_spec, fetchNFCe_task. cbn.
    rewrite fetches_app. cbn. lia.
  - cbn in Hstep. rewrite resume_spec in Hstep.
    destruct (nth_error (pending w) i) as [t|] eqn:Ht; [|discriminate].
    injection Hstep as <-. cbn [ui history starts_scan b2n].
    rewrite fetches_app.
    destruct Hphase as [[_ [Hnil|[b Hone]]]|[_ Hq]].
    + rewrite Hnil in Ht. destruct i; discriminate.
    + rewrite Hone in Ht.
      destruct i as [|i]; [|destruct i; discriminate].
      injection Ht as <-. cbn. lia.
    + assert (quiet_task t) as Hqt.
      { apply nth_error_In in Ht.
        now apply (proj1 (Forall_forall _ _) Hq). }
      destruct (quiet_first_run t (ui w) Hqt) as (_ & Hs & _ & _ & Hf).
      rewrite Hs, Hf. lia.
Qed.

Lemma run_accounting w l w' :
  Inv w -> run w l = Some w' ->
  fetches (history w') + b2n (isScanning (ui w'))
  <= fetches (history w) + b2n (isScanning (ui w)) + starts w l
  /\ fetches (history w) <= fetches (history w').
Proof.
  revert w; induction l as [|[fetch e] l IH]; intros w Hinv Hrun;
    cbn in Hrun |- *.
  - injection Hrun as <-. lia.
  - destruct (step fetch w e) as [w1|] eqn:Hstep; [|discriminate].
    destruct (step_accounting fetch w e w1 Hinv Hstep).
    destruct (IH w1 (step_inv fetch w e w1 Hinv Hstep) Hrun). lia.
Qed.

(** C4.  The viewfinder reports a code only while a scan is going on;
    the handler then ends the scan, keeps the decoded text as it is in
    [rawUrl], and calls [fetchNFCe] with that text, which issues one
    request for it.  Until the user starts another scan no further
    request is issued: a scan session gives one fetch at most. *)
Theorem scan_gives_one_fetch (fetch : Request -> Settled Response)
    (w w1 : World) (result : Camera.BarcodeScanningResult) :
  reachable w ->
  step fetch w (Scanned result) = Some w1 ->
  isScanning (ui w) = true
  /\ isScanning (ui w1) = false
  /\ rawUrl (ui w1) = Some (Camera.data result)
  /\ history w1
     = history w
       ++ [SetIsScanning false; SetRawUrl (Some (Camera.data result));
           ConsoleLog "QR LIDO:" (LogText (Camera.data result))]
       ++ first_run (fst (fetchNFCe fetch (Camera.data result)))
  /\ first_run (fst (fetchNFCe fetch (Camera.data result)))
     = [SetLoading true; SetError None; SetInvoice None;
        Fetch (request_for (Camera.data result))]
  /\ body (request_for (Camera.data result)) = Camera.data result
  /\ fetches (history w1) = fetches (history w) + 1
  /\ (forall l w2,
        run w1 l = Some w2 -> starts w1 l = 0 ->
        fetches (history w2) = fetches (history w1))
  /\ (forall l w2,
        run w l = Some w2 -> starts w l = 0 ->
        fetches (history w2) <= fetches (history w) + 1).
Proof.
  intros Hreach Hstep.
  pose proof (reachable_inv w Hreach) as Hinv.
  pose proof (step_inv fetch w _ w1 Hinv Hstep) as Hinv1.
  assert (isScanning (ui w) = true) as Hscan.
  { rewrite step_Scanned in Hstep.
    destruct (hasPermission (ui w)) as [[|]|]; try discriminate.
    now destruct (isScanning (ui w)). }
  assert (isScanning (ui w1) = false
          /\ rawUrl (ui w1) = Some (Camera.data result)
          /\ history w1
             = history w
               ++ [SetIsScanning false; SetRawUrl (Some (Camera.data result));
                   ConsoleLog "QR LIDO:" (LogText (Camera.data result))]
               ++ first_run (fst (fetchNFCe fetch (Camera.data result))))
    as (Hidle & Hraw & Hhist).
  { rewrite step_Scanned in Hstep.
    destruct (hasPermission (ui w)) as [[|]|]; try discriminate.
    rewrite Hscan in Hstep. injection Hstep as <-.
    rewrite start_spec, fetchNFCe_task. cbn. auto. }
  assert (first_run (fst (fetchNFCe fetch (Camera.data result)))
          = [SetLoading true; SetError None; SetInvoice None;
             Fetch (request_for (Camera.data result))]) as Hfirst
    by (now rewrite fetchNFCe_task).
  assert (fetches (history w1) = fetches (history w) + 1) as Hone.
  { rewrite Hhist, Hfirst, !fetches_app. cbn. lia. }
  repeat split; auto.
  - intros l w2 Hrun H0.
    destruct (run_accounting w1 l w2 Hinv1 Hrun) as [Hle Hge].
    rewrite Hidle, H0 in Hle. cbn in Hle. lia.
  - intros l w2 Hrun H0.
    destruct (run_accounting w l w2 Hinv Hrun) as [Hle _].
    rewrite Hscan, H0 in Hle. cbn in Hle. lia.
Qed.

Lemma scanning_reachable : reachable scanning.
Proof.
  apply (run_reachable (mount granted) scan_started).
  - constructor.
  - reflexivity.
Defined.

Lemma scan_gives_one_fetch_witness :
  let w1 :=
    start (fst (handleBarcodeScanned backend_up (qr "https://example/nfce?x=1")))
      scanning in
  isScanning (ui w1) = false
  /\ rawUrl (ui w1) = Some "https://example/nfce?x=1"
  /\ fetches (history w1) = fetches (history scanning) + 1.
Proof.
  destruct (scan_gives_one_fetch backend_up scanning
              (start (fst (handleBarcodeScanned backend_up
                             (qr "https://example/nfce?x=1"))) scanning)
              (qr "https://example/nfce?x=1") scanning_reachable eq_refl)
    as (_ & Hidle & Hraw & _ & _ & _ & Hone & _).
  exact (conj Hidle (conj Hraw Hone)).
Defined.

(** ** Currency amounts *)

Lemma all_digits_uint d : all_digits (NilEmpty.string_of_uint d) = true.
Proof. induction d; simpl; auto. Qed.

Lemma decimal_digits n :
  all_digits (decimal n) = true /\ 1 <= String.length (decimal n).
Proof.
  unfold decimal, NilZero.string_of_uint.
  destruct (N.to_uint (Z.to_N n)) as [|d|d|d|d|d|d|d|d|d|d] eqn:E.
  1: split; [reflexivity|simpl; lia].
  all: rewrite <- E; split; [apply all_digits_uint|rewrite E; simpl; lia].
Qed.

Lemma all_digits_app a b :
  all_digits (a ++ b)%string = all_digits a && all_digits b.
Proof.
  induction a as [|c a IH]; simpl; [reflexivity|].
  now rewrite IH, andb_assoc.
Qed.

Lemma zeros_digits k : all_digits (zeros k) = true /\ String.length (zeros k) = k.
Proof. induction k as [|k [IH1 IH2]]; simpl; auto. Qed.

Lemma length_app a b :
  String.length (a ++ b)%string = String.length a + String.length b.
Proof. induction a as [|c a IH]; simpl; auto. Qed.

Lemma split_at_spec n s a b :
  split_at n s = (a, b) ->
  s = (a ++ b)%string /\ String.length a = Nat.min n (String.length s).
Proof.
  revert s a b; induction n as [|n IH]; intros s a b H; simpl in H.
  - injection H as <- <-. auto.
  - destruct s as [|c r]; [injection H as <- <-; auto|].
    destruct (split_at n r) as [a' b'] eqn:E. injection H as <- <-.
    destruct (IH r a' b' E) as [-> Hl]. simpl. rewrite Hl.
    rewrite length_app, Hl. split; [reflexivity|].
    rewrite <- Hl. reflexivity.
Qed.

Lemma two_digits_of b :
  all_digits b = true -> String.length b = 2 -> two_digits b = true.
Proof.
  destruct b as [|x [|y [|z r]]]; simpl; try discriminate.
  now rewrite andb_true_r.
Qed.

Lemma digits_point_two_app seen a b :
  all_digits a = true ->
  digits_point_two seen (a ++ String "." b)%string
  = (seen || (0 <? String.length a)%nat) && two_digits b.
Proof.
  revert seen; induction a as [|c a IH]; intros seen Ha; simpl in *.
  - now rewrite orb_false_r.
  - apply andb_prop in Ha as [Hc Ha]. rewrite Hc, IH by assumption.
    now rewrite orb_true_r.
Qed.

Lemma digit_not_minus c : is_digit c = true -> Ascii.eqb c "-" = false.
Proof.
  intros H. destruct (Ascii.eqb_spec c "-") as [->|]; [discriminate|reflexivity].
Qed.

(** A sign, digits, a point and two digits make a decimal with two
    decimal digits. *)
Lemma fixed2_of (neg : bool) a b :
  all_digits a = true -> 1 <= String.length a ->
  all_digits b = true -> String.length b = 2 ->
  fixed2 ((if neg then "-" else EmptyString) ++ a ++ "." ++ b)%string = true.
Proof.
  intros Ha Hla Hb Hlb.
  assert (digits_point_two false (a ++ String "." b)%string = true) as Hbody.
  { rewrite digits_point_two_app, (two_digits_of b) by assumption.
    destruct (String.length a); [lia|reflexivity]. }
  destruct neg; simpl; [exact Hbody|].
  destruct a as [|c a]; [simpl in Hla; lia|]. simpl in Ha |- *.
  apply andb_prop in Ha as [Hc _]. rewrite (digit_not_minus c Hc).
  simpl in Hbody. exact Hbody.
Qed.

Lemma insert_point_2 m :
  all_digits m = true -> 1 <= String.length m ->
  exists a b,
    insert_point 2 m = (a ++ "." ++ b)%string
    /\ all_digits a = true /\ 1 <= String.length a
    /\ all_digits b = true /\ String.length b = 2.
Proof.
  intros Hm Hl. unfold insert_point.
  set (p := if (String.length m <=? 2)%nat
            then (zeros (2 + 1 - String.length m) ++ m)%string else m).
  assert (all_digits p = true /\ 3 <= String.length p) as [Hp Hlp].
  { unfold p. destruct (Nat.leb_spec (String.length m) 2) as [Hle|Hgt].
    - destruct (zeros_digits (2 + 1 - String.length m)) as [Hz Hlz].
      rewrite all_digits_app, length_app, Hz, Hlz, Hm. split; [reflexivity|lia].
    - split; [assumption|lia]. }
  destruct (split_at (String.length p - 2) p) as [a b] eqn:E.
  destruct (split_at_spec _ _ _ _ E) as [Hab Hla].
  exists a, b. split; [reflexivity|].
  rewrite Hab, all_digits_app in Hp. apply andb_prop in Hp as [Ha Hb].
  assert (String.length p = String.length a + String.length b) as Hsum
    by (rewrite Hab at 1; apply length_app).
  repeat split; auto; lia.
Qed.

Lemma magnitude q :
  let neg := negb (Qle_bool 0 q) in
  ((if neg then - q else q) == Qabs q)%Q.
Proof.
  cbv zeta. destruct (Qle_bool 0 q) eqn:E; cbn [negb].
  - apply Qle_bool_iff in E. symmetry. now apply Qabs_pos.
  - symmetry. apply Qabs_neg. apply Qnot_lt_le. intros H.
    apply Qlt_le_weak, Qle_bool_iff in H. congruence.
Qed.

(** Below 10^21 [toFixed(2)] gives a decimal with two decimal digits. *)
Lemma toFixed_2_fixed2 q :
  below_1e21 (Finite q) ->
  exists s, toFixed 2 (Finite q) = [Lit s] /\ fixed2 s = true.
Proof.
  cbn [below_1e21]. intros Hq. unfold toFixed.
  set (neg := negb (Qle_bool 0 q)).
  set (ax := if neg then (- q)%Q else q).
  assert (Qle_bool (inject_Z (10 ^ 21)) ax = false) as ->.
  { destruct (Qle_bool (inject_Z (10 ^ 21)) ax) eqn:E; [|reflexivity].
    apply Qle_bool_iff in E. unfold ax, neg in E. rewrite magnitude in E.
    exfalso. exact (Qlt_not_le _ _ Hq E). }
  cbv zeta.
  set (n := Qfloor (ax * inject_Z (10 ^ Z.of_nat 2) + (1 # 2))).
  destruct (decimal_digits n) as [Hd Hl].
  destruct (insert_point_2 (decimal n) Hd Hl) as (a & b & -> & Ha & Hla & Hb & Hlb).
  eexists. split; [reflexivity|]. now apply fixed2_of.
Qed.

(** The integer whose digits [toFixed(2)] prints is the nearest to one
    hundred times the magnitude. *)
Lemma nearest_hundredth (ax : Q) :
  let n := Qfloor (ax * inject_Z (10 ^ Z.of_nat 2) + (1 # 2)) in
  (inject_Z n - (1 # 2) <= ax * 100 /\ ax * 100 < inject_Z n + (1 # 2))%Q.
Proof.
  cbv zeta. set (y := (ax * inject_Z (10 ^ Z.of_nat 2) + (1 # 2))%Q).
  pose proof (Qfloor_le y) as Hlo. pose proof (Qlt_floor y) as Hhi.
  rewrite inject_Z_plus in Hhi.
  assert (y == ax * 100 + (1 # 2))%Q as Hy by reflexivity.
  generalize dependent (inject_Z (Qfloor y)). intros z Hlo Hhi.
  change (inject_Z 1) with 1%Q in Hhi.
  split; lra.
Qed.

Lemma currency_toFixed prefix x :
  below_1e21 x -> currency prefix (prefix ++ toFixed 2 x).
Proof.
  destruct x as [| |q]; try contradiction. intros Hq.
  destruct (toFixed_2_fixed2 q Hq) as (s & Ht & Hs).
  exists s. split; [now rewrite Ht|assumption].
Qed.

(** C8, as stated, fails: a total that is not finite is rendered by
    [toFixed(2)] without decimal digits. *)
Lemma infinite_total_has_no_decimals :
  match run (mount granted) (scan_and_fetch backend_overflowing) with
  | Some w => total_shown backend_overflowing w
  | None => None
  end = Some [Lit "R$ "; Lit "Infinity"]
  /\ fixed2 "Infinity" = false.
Proof. split; reflexivity. Qed.

(** Scenario D: the total 19.9 is shown as "R$ 19.90", 12.5 as "12.50". *)
Example total_of_scenario_D :
  match run (mount granted) (scan_and_fetch backend_up) with
  | Some w => total_shown backend_up w
  | None => None
  end = Some [Lit "R$ "; Lit "19.90"]
  /\ toFixed 2 (Finite (25 # 2)) = [Lit "12.50"].
Proof. split; reflexivity. Qed.

(** [toFixed(2)] on the double nearest to 1.005, which lies below it, on
    a small negative number and on zero. *)
Example toFixed_rounds :
  toFixed 2 (Finite (1131529406376837 # 1125899906842624)) = [Lit "1.00"]
  /\ toFixed 2 (Finite (-1 # 1000)) = [Lit "-0.00"]
  /\ toFixed 2 (Finite 0) = [Lit "0.00"]
  /\ toFixed 2 (Finite (5 # 1000)) = [Lit "0.01"].
Proof. repeat split. Qed.

(** At or beyond 10^21, and for a value that is not finite, [toFixed]
    gives what [Number::toString] gives (after an empty sign for a
    positive number). *)
Lemma toFixed_beyond f x :
  (below_1e21 x -> False) ->
  toFixed f x = Number_toString x
  \/ toFixed f x = Lit EmptyString :: Number_toString x.
Proof.
  destruct x as [|neg|q]; [left; reflexivity..|].
  cbn [below_1e21]. intros Hq. unfold toFixed.
  pose proof (magnitude q) as Hm. cbv zeta in Hm.
  assert (inject_Z (10 ^ 21) <= Qabs q)%Q as Hbig by now apply Qnot_lt_le.
  assert (Qle_bool (inject_Z (10 ^ 21))
            (if negb (Qle_bool 0 q) then (- q)%Q else q) = true) as ->.
  { apply Qle_bool_iff. now rewrite Hm. }
  assert (0 < inject_Z (10 ^ 21))%Q as Hpos by reflexivity.
  destruct (Qle_bool 0 q) eqn:Hsign; cbn [negb] in *.
  - right. reflexivity.
  - left. unfold Number_toString.
    assert (0 < - q)%Q as Hneg.
    { rewrite Hm. eapply Qlt_le_trans; eassumption. }
    assert (Qeq_bool (- q) 0 = false) as ->.
    { destruct (Qeq_bool (- q) 0) eqn:E; [|reflexivity].
      apply Qeq_bool_iff in E. rewrite E in Hneg.
      now apply Qlt_irrefl in Hneg. }
    assert (Qle_bool 0 (- q) = true) as ->.
    { apply Qle_bool_iff. now apply Qlt_le_weak. }
    assert (Qeq_bool q 0 = false) as ->.
    { destruct (Qeq_bool q 0) eqn:E; [|reflexivity].
      apply Qeq_bool_iff in E. rewrite E in Hsign. discriminate Hsign. }
    rewrite Hsign. reflexivity.
Qed.

(** A body with none of the declared properties is stored as it is, and
    the render that follows throws: nothing of the screen is shown. *)
Example body_without_fields_throws :
  option_map
    (fun w => (invoice (ui w), error (ui w), loading (ui w),
               throws (App backend_empty_object (ui w))))
    (run (mount granted) (scan_and_fetch backend_empty_object))
  = Some (Some (VObject []), None, false, true).
Proof. reflexivity. Qed.

(** C8, amended.  In an invoice card on display the total and, for every
    item in the order received, the unit value and the line total are
    numbers, each rendered by [toFixed(2)] after the prefix "R$ ".  For
    every number that is finite and below 10^21 in magnitude that is a
    decimal with exactly two decimal digits; for every other number it
    is the string [Number::toString] gives, which for a number that is
    not finite has no decimal digits. *)
Theorem amounts_with_two_decimals (fetch : Request -> Settled Response)
    (s : State) (m : MainScreen) (r : ResultScroll) :
  App fetch s = Container m ->
  resultScroll m = Some (Built r) ->
  (exists v x items,
     invoice s = Some v
     /\ get v "total" = Some (VNumber x)
     /\ get v "itens" = Some (VArray items)
     /\ totalValue r = [Lit "R$ "] ++ toFixed 2 x
     /\ List.length (itemCards r) = List.length items
     /\ (forall k card,
           nth_error (itemCards r) k = Some card ->
           exists item q u t,
             nth_error items k = Some (Some item)
             /\ child (get item "quantidade") = Built q
             /\ get item "valor_unitario" = Some (VNumber u)
             /\ get item "valor_total" = Some (VNumber t)
             /\ itemSubText card
                = (Lit "Qtd: " :: q ++ [Lit " • Vl. unit: R$"; Lit " "])
                  ++ toFixed 2 u
             /\ itemTotal card = [Lit "R$ "] ++ toFixed 2 t))
  /\ (forall prefix x,
        below_1e21 x -> currency prefix (prefix ++ toFixed 2 x))
  /\ (forall x,
        (below_1e21 x -> False) ->
        toFixed 2 x = Number_toString x
        \/ toFixed 2 x = Lit EmptyString :: Number_toString x)
  /\ (forall x,
        x = NaN \/ x = Infinity false \/ x = Infinity true ->
        exists str, toFixed 2 x = [Lit str] /\ fixed2 str = false).
Proof.
  intros Happ Hres.
  split; [|split; [|split]].
  - destruct (App_result fetch s m _ Happ Hres) as (v & Hinv & _ & _ & _ & Hr).
    symmetry in Hr.
    apply renderResult_built in Hr as (x & items & Ht & Hi & Htotal & Hcards & _).
    exists v, x, items.
    destruct (map_items_built _ _ _ Hcards) as [Hlen Hnth].
    repeat (split; [assumption|]).
    intros k card Hk. destruct (Hnth k card Hk) as (item & Hitem & Hcard).
    apply renderItem_built in Hcard
      as (w & q & u & t & -> & _ & Hq & Hu & Hl & Hsub & Hline).
    exists w, q, u, t. repeat (split; [assumption|]).
    split; [|assumption].
    rewrite Hsub. cbn. now rewrite <- app_assoc.
  - intros prefix x Hx. now apply currency_toFixed.
  - intros x Hx. now apply toFixed_beyond.
  - intros x [->|[->| ->]]; eexists; split; reflexivity.
Qed.

Lemma amounts_with_two_decimals_witness :
  exists v x items,
    invoice (ui showing_invoice) = Some v
    /\ get v "total" = Some (VNumber x)
    /\ get v "itens" = Some (VArray items)
    /\ totalValue
         (invoiceResult (rawUrl (ui showing_invoice)) mercado_x_invoice)
       = [Lit "R$ "] ++ toFixed 2 x
    /\ List.length
         (itemCards
            (invoiceResult (rawUrl (ui showing_invoice)) mercado_x_invoice))
       = List.length items
    /\ (forall k card,
          nth_error
            (itemCards
               (invoiceResult (rawUrl (ui showing_invoice))
                  mercado_x_invoice)) k
          = Some card ->
          exists item q u t,
            nth_error items k = Some (Some item)
            /\ child (get item "quantidade") = Built q
            /\ get item "valor_unitario" = Some (VNumber u)
            /\ get item "valor_total" = Some (VNumber t)
            /\ itemSubText card
               = (Lit "Qtd: " :: q ++ [Lit " • Vl. unit: R$"; Lit " "])
                 ++ toFixed 2 u
            /\ itemTotal card = [Lit "R$ "] ++ toFixed 2 t).
Proof.
  exact (proj1
    (amounts_with_two_decimals backend_up (ui showing_invoice) _
       (invoiceResult (rawUrl (ui showing_invoice)) mercado_x_invoice)
       eq_refl eq_refl)).
Defined.

(** * Further properties of the screen *)

(** ** How [fetchNFCe] completes *)

(** No exception leaves [fetchNFCe]: its promise resolves on every path,
    by the early [return] exactly when the status is outside 200..299 and
    the body was read, and at the end of the function otherwise. *)
Theorem fetchNFCe_always_resolves (fetch : Request -> Settled Response)
    (url : string) :
  (snd (fetchNFCe fetch url) = Returned
   \/ snd (fetchNFCe fetch url) = Normal tt)
  /\ (snd (fetchNFCe fetch url) = Returned <->
      exists res body,
        fetch (request_for url) = Fulfilled res
        /\ ok res = false /\ text res = Fulfilled body).
Proof.
  unfold fetchNFCe.
  destruct (fetch (request_for url)) as [res|e].
  - cbn. destruct (ok res) eqn:Hok; cbn;
      [destruct (json res) as [data|e] eqn:Hbody
      |destruct (text res) as [body|e] eqn:Hbody]; cbn.
    all: split; [auto|split; [intros H|intros (r & b & Hr & Ho & Hb)]].
    all: try discriminate H.
    all: try (injection Hr as <-; congruence).
    exists res, body. auto.
  - cbn. split; [auto|]. split; [discriminate|].
    intros (r & b & Hr & _). discriminate Hr.
Qed.

(** ** Traces of the screen *)

Lemma requests_app h k : requests (h ++ k) = requests h ++ requests k.
Proof.
  induction h as [|a h IH]; simpl; auto.
  destruct a; simpl; auto. now rewrite IH.
Qed.

Lemma quiet_no_request t : quiet_task t -> requests (first_run t) = [].
Proof.
  induction 1 as [|[a|] k Ha Hk IH]; simpl; auto.
  destruct a; cbn in Ha |- *; auto; contradiction.
Qed.

(** What a step adds to the requests and does to [rawUrl]: a reported
    code gives one request, for its text, and becomes [rawUrl]; nothing
    else issues a request or touches [rawUrl]. *)
Lemma step_trace fetch w e w' :
  Inv w -> step fetch w e = Some w' ->
  requests (history w')
  = requests (history w) ++ map request_for (scans [(fetch, e)])
  /\ rawUrl (ui w')
     = match e with
       | Scanned result => Some (Camera.data result)
       | _ => rawUrl (ui w)
       end.
Proof.
  intros [_ Hphase] Hstep. destruct e as [|result|i].
  - rewrite step_Press in Hstep.
    destruct (hasPermission (ui w)) as [[|]|]; try discriminate.
    injection Hstep as <-. rewrite start_spec. cbn.
    rewrite requests_app. cbn. now rewrite !app_nil_r.
  - rewrite step_Scanned in Hstep.
    destruct (hasPermission (ui w)) as [[|]|]; try discriminate.
    destruct (isScanning (ui w)); [|discriminate].
    injection Hstep as <-. rewrite start_spec, fetchNFCe_task. cbn.
    rewrite requests_app. cbn. auto.
  - cbn in Hstep. rewrite resume_spec in Hstep.
    destruct (nth_error (pending w) i) as [t|] eqn:Ht; [|discriminate].
    injection Hstep as <-. cbn [ui history scans map].
    rewrite requests_app, app_nil_r.
    destruct Hphase as [[_ [Hnil|[b Hone]]]|[_ Hq]].
    + rewrite Hnil in Ht. destruct i; discriminate.
    + rewrite Hone in Ht.
      destruct i as [|i]; [|destruct i; discriminate].
      injection Ht as <-. cbn. now rewrite app_nil_r.
    + assert (quiet_task t) as Hqt.
      { apply nth_error_In in Ht.
        now apply (proj1 (Forall_forall _ _) Hq). }
      destruct (quiet_first_run t (ui w) Hqt) as (_ & _ & Hr & _ & _).
      rewrite (quiet_no_request t Hqt), app_nil_r. auto.
Qed.

Lemma scans_cons i l : scans (i :: l) = scans [i] ++ scans l.
Proof. destruct i as [fetch [|result|k]]; reflexivity. Qed.

(** The requests the screen issues are those for the codes it was
    shown, one each and in that order: each a POST of the decoded text
    to the backend's one address, as JSON.  Nothing is retried and
    nothing else is ever requested. *)
Theorem requests_are_the_scans (w w' : World) (l : list Input) :
  reachable w ->
  run w l = Some w' ->
  requests (history w') = requests (history w) ++ map request_for (scans l)
  /\ Forall (fun req => endpoint req = BACKEND_URL /\ method req = "POST"
                        /\ contentType req = "application/json"
                        /\ In (body req) (scans l))
       (map request_for (scans l)).
Proof.
  intros Hreach Hrun. split.
  - apply reachable_inv in Hreach. revert w Hreach Hrun.
    induction l as [|[fetch e] l IH]; intros w Hinv Hrun; cbn in Hrun.
    + injection Hrun as <-. cbn. now rewrite app_nil_r.
    + destruct (step fetch w e) as [w1|] eqn:Hstep; [|discriminate].
      rewrite (IH w1 (step_inv fetch w e w1 Hinv Hstep) Hrun).
      destruct (step_trace fetch w e w1 Hinv Hstep) as [-> _].
      rewrite (scans_cons (fetch, e) l), map_app, app_assoc. reflexivity.
  - apply Forall_forall. intros req Hin.
    apply in_map_iff in Hin as (u & <- & Hu). cbn. auto.
Qed.

Lemma requests_are_the_scans_witness :
  requests (history scanning) = []
  /\ exists w',
       run scanning [(backend_up, Scanned (qr "https://example/nfce?x=1"));
                     (backend_up, Settle 0); (backend_up, Settle 0)]
       = Some w'
       /\ requests (history w') = [request_for "https://example/nfce?x=1"].
Proof.
  split; [reflexivity|]. eexists. split; [reflexivity|].
  exact (proj1 (requests_are_the_scans scanning _
                  [(backend_up, Scanned (qr "https://example/nfce?x=1"));
                   (backend_up, Settle 0); (backend_up, Settle 0)]
                  scanning_reachable eq_refl)).
Defined.

(** [rawUrl] holds the text of the code reported last, as it was
    decoded; it is never cleared, not by a fetch and not by the scan
    control. *)
Theorem rawUrl_is_the_last_scan (w w' : World) (l : list Input) :
  reachable w ->
  run w l = Some w' ->
  rawUrl (ui w')
  = fold_left (fun _ payload => Some payload) (scans l) (rawUrl (ui w)).
Proof.
  intros Hreach Hrun. apply reachable_inv in Hreach. revert w Hreach Hrun.
  induction l as [|[fetch e] l IH]; intros w Hinv Hrun; cbn in Hrun.
  - now injection Hrun as <-.
  - destruct (step fetch w e) as [w1|] eqn:Hstep; [|discriminate].
    rewrite (IH w1 (step_inv fetch w e w1 Hinv Hstep) Hrun).
    destruct (step_trace fetch w e w1 Hinv Hstep) as [_ ->].
    now destruct e.
Qed.

Lemma rawUrl_is_the_last_scan_witness :
  exists w',
    run scanning [(backend_up, Scanned (qr "https://example/nfce?x=1"));
                  (backend_up, Press);
                  (network_down, Scanned (qr "https://example/nfce?x=2"))]
    = Some w'
    /\ rawUrl (ui w') = Some "https://example/nfce?x=2".
Proof.
  eexists. split; [reflexivity|].
  exact (rawUrl_is_the_last_scan scanning _
           [(backend_up, Scanned (qr "https://example/nfce?x=1"));
            (backend_up, Press);
            (network_down, Scanned (qr "https://example/nfce?x=2"))]
           scanning_reachable eq_refl).
Defined.

(** ** The viewfinder and the loading indicator *)

Lemma granted_or_idle w :
  reachable w -> hasPermission (ui w) = Some true \/ isScanning (ui w) = false.
Proof.
  induction 1 as [answer|w fetch e w' Hreach IH Hstep].
  - right. unfold mount. rewrite start_spec. now destruct answer.
  - pose proof (reachable_inv w Hreach) as Hinv.
    destruct e as [|result|i].
    + left. rewrite step_Press in Hstep.
      destruct (hasPermission (ui w)) as [[|]|] eqn:Hp; try discriminate.
      injection Hstep as <-. rewrite start_spec. cbn. exact Hp.
    + left. rewrite step_Scanned in Hstep.
      destruct (hasPermission (ui w)) as [[|]|] eqn:Hp; try discriminate.
      destruct (isScanning (ui w)); [|discriminate].
      injection Hstep as <-. rewrite start_spec, fetchNFCe_task. cbn.
      exact Hp.
    + destruct Hinv as [_ Hphase].
      cbn in Hstep. rewrite resume_spec in Hstep.
      destruct (nth_error (pending w) i) as [t|] eqn:Ht; [|discriminate].
      injection Hstep as <-. cbn [ui].
      destruct Hphase as [[Hn [Hnil|[b Hone]]]|[_ Hq]].
      * rewrite Hnil in Ht. destruct i; discriminate.
      * rewrite Hone in Ht.
        destruct i as [|i]; [|destruct i; discriminate].
        injection Ht as <-. cbn. right.
        destruct IH as [IH|IH]; [congruence|exact IH].
      * assert (quiet_task t) as Hqt.
        { apply nth_error_In in Ht.
          now apply (proj1 (Forall_forall _ _) Hq). }
        destruct (quiet_first_run t (ui w) Hqt) as (-> & -> & _).
        exact IH.
Qed.

(** A scan goes on only with the permission granted, so that
    [isScanning] is true exactly when the viewfinder is on the screen:
    the camera is never on behind the permission views, and the cell is
    never true with the viewfinder off. *)
Theorem scanning_iff_viewfinder (fetch : Request -> Settled Response)
    (w : World) :
  reachable w ->
  (isScanning (ui w) = true -> hasPermission (ui w) = Some true)
  /\ (isScanning (ui w) = true <->
      exists m cam,
        App fetch (ui w) = Container m /\ scannerContainer m = Some cam).
Proof.
  intros Hreach.
  assert (isScanning (ui w) = true -> hasPermission (ui w) = Some true)
    as Hgranted.
  { destruct (granted_or_idle w Hreach) as [H|H]; [auto|congruence]. }
  split; [exact Hgranted|]. split.
  - intros Hscan. unfold App. rewrite (Hgranted Hscan).
    do 2 eexists. split; [reflexivity|]. cbn. rewrite Hscan. reflexivity.
  - intros (m & cam & Happ & Hcam). unfold App in Happ.
    destruct (hasPermission (ui w)) as [[|]|]; try discriminate.
    injection Happ as <-. cbn in Hcam.
    destruct (isScanning (ui w)); [reflexivity|discriminate].
Qed.

Lemma scanning_iff_viewfinder_witness :
  isScanning (ui scanning) = true
  /\ hasPermission (ui scanning) = Some true.
Proof.
  split; [reflexivity|].
  exact (proj1 (scanning_iff_viewfinder backend_up scanning
                  scanning_reachable) eq_refl).
Defined.

Lemma epilogue_ends_loading answer : ends_loading (epilogue answer).
Proof.
  unfold epilogue, failed, ends_loading.
  destruct answer as [res|e]; [destruct (ok res);
    [destruct (json res)|destruct (text res)]|].
  1-4: now eexists [_; _; _].
  now eexists [_; _].
Qed.

(** A task that ends with [setLoading(false)] either runs to its end now
    and leaves [loading] false, or waits again and still ends so. *)
Lemma ends_loading_runs t s :
  ends_loading t ->
  (continuation t = [] /\ loading (apply_all (first_run t) s) = false)
  \/ (continuation t <> [] /\ ends_loading (continuation t)).
Proof.
  intros [before ->]. revert s.
  induction before as [|[a|] k IH]; intros s.
  - left. split; reflexivity.
  - cbn. apply IH.
  - right. cbn. split; [now destruct k|]. now exists k.
Qed.

Lemma nth_error_parts {A : Type} (l : list A) i x :
  nth_error l i = Some x -> l = firstn i l ++ x :: skipn (S i) l.
Proof.
  revert i; induction l as [|y l IH]; intros [|i] H; try discriminate.
  - now injection H as ->.
  - cbn. f_equal. now apply IH.
Qed.

(** While [loading] is true one of the pending tasks will set it to
    false. *)
Lemma loading_has_its_task w :
  reachable w ->
  Forall (fun t => ends_loading t
                   \/ exists b, t = [Do (SetHasPermission (Some b))])
    (pending w)
  /\ (loading (ui w) = true -> exists t, In t (pending w) /\ ends_loading t).
Proof.
  induction 1 as [answer|w fetch e w' Hreach [IHall IHload] Hstep].
  - unfold mount. rewrite start_spec.
    destruct answer as [r|err]; cbn; (split; [|discriminate]).
    + constructor; [right; eauto|constructor].
    + constructor.
  - destruct e as [|result|i].
    + rewrite step_Press in Hstep.
      destruct (hasPermission (ui w)) as [[|]|]; try discriminate.
      injection Hstep as <-. rewrite start_spec. cbn. rewrite app_nil_r.
      auto.
    + rewrite step_Scanned in Hstep.
      destruct (hasPermission (ui w)) as [[|]|]; try discriminate.
      destruct (isScanning (ui w)); [|discriminate].
      injection Hstep as <-. rewrite start_spec, fetchNFCe_task.
      unfold prelude. cbn [first_run continuation app ui pending].
      pose proof (epilogue_ends_loading
                    (fetch (request_for (Camera.data result)))) as Hend.
      assert (park (epilogue (fetch (request_for (Camera.data result))))
              = [epilogue (fetch (request_for (Camera.data result)))]) as ->.
      { destruct Hend as [before Hb]. rewrite Hb. now destruct before. }
      split.
      * apply Forall_app. split; [assumption|]. constructor; auto.
      * intros _. eexists. split; [|exact Hend].
        apply in_or_app. right. now left.
    + cbn in Hstep. rewrite resume_spec in Hstep.
      destruct (nth_error (pending w) i) as [t|] eqn:Ht; [|discriminate].
      injection Hstep as <-. cbn [ui pending].
      pose proof (nth_error_parts _ _ _ Ht) as Hparts.
      rewrite Hparts in IHall.
      apply Forall_app in IHall as [Hfirst Hrest].
      inversion Hrest as [|? ? Ht' Hskip]; subst.
      destruct Ht' as [Hend|[b ->]].
      * destruct (ends_loading_runs t (ui w) Hend) as [[Hk Hoff]|[Hk Hend']].
        -- rewrite Hk. cbn. split; [now apply Forall_app|]. congruence.
        -- assert (park (continuation t) = [continuation t]) as ->
             by (destruct (continuation t); [contradiction|reflexivity]).
           split.
           ++ apply Forall_app. split; [assumption|].
              constructor; auto.
           ++ intros _. exists (continuation t). split; [|assumption].
              apply in_or_app. right. now left.
      * cbn. split; [now apply Forall_app|]. intros Hload.
        destruct (IHload Hload) as (t' & Hin & Hend).
        exists t'. split; [|assumption].
        rewrite Hparts in Hin. apply in_app_or in Hin as [Hin|[<-|Hin]].
        -- apply in_or_app. now left.
        -- destruct Hend as [[|x before] Hb]; [discriminate|].
           destruct before; discriminate.
        -- apply in_or_app. now right.
Qed.

(** The loading indicator is on the screen only while a fetch is in
    flight: with [loading] true some task is pending, and with nothing
    pending [loading] is false and no indicator is rendered. *)
Theorem loading_means_fetch_in_flight (fetch : Request -> Settled Response)
    (w : World) :
  reachable w ->
  (loading (ui w) = true -> pending w <> [])
  /\ (pending w = [] ->
      loading (ui w) = false
      /\ forall m, App fetch (ui w) = Container m -> statusBox m = None).
Proof.
  intros Hreach. destruct (loading_has_its_task w Hreach) as [_ Hload].
  assert (loading (ui w) = true -> pending w <> []) as Hpending.
  { intros H. destruct (Hload H) as (t & Hin & _).
    intros Hnil. rewrite Hnil in Hin. destruct Hin. }
  split; [exact Hpending|]. intros Hnil.
  assert (loading (ui w) = false) as Hoff.
  { destruct (loading (ui w)); [|reflexivity].
    now destruct (Hpending eq_refl). }
  split; [exact Hoff|]. intros m Happ. unfold App in Happ.
  destruct (hasPermission (ui w)) as [[|]|]; try discriminate.
  injection Happ as <-. cbn. now rewrite Hoff.
Qed.

Lemma loading_means_fetch_in_flight_witness :
  pending scanning = [] /\ loading (ui scanning) = false.
Proof.
  split; [reflexivity|].
  exact (proj1 (proj2 (loading_means_fetch_in_flight backend_up scanning
                         scanning_reachable) eq_refl)).
Defined.

(** ** From a reported code to the screen *)

(** As soon as a code is reported the screen shows the loading indicator
    and nothing else of the status contents: the viewfinder is gone, the
    control offers a new scan, and a result or an error of an earlier
    scan is no longer on display, before any answer has arrived. *)
Theorem decode_shows_loading_only (fetch fetch' : Request -> Settled Response)
    (w w1 : World) (result : Camera.BarcodeScanningResult) :
  step fetch w (Scanned result) = Some w1 ->
  invoice (ui w1) = None /\ error (ui w1) = None /\ loading (ui w1) = true
  /\ exists m,
       App fetch' (ui w1) = Container m
       /\ status_contents m = [LoadingIndicator]
       /\ scannerContainer m = None
       /\ title (actions m) = "Escanear Nota".
Proof.
  intros Hstep. rewrite step_Scanned in Hstep.
  destruct (hasPermission (ui w)) as [[|]|] eqn:Hp; try discriminate.
  destruct (isScanning (ui w)); [|discriminate].
  injection Hstep as <-. rewrite start_spec, fetchNFCe_task.
  unfold prelude. cbn [first_run app ui]. unfold App, apply_all.
  cbn. rewrite Hp. repeat split. eexists. repeat split.
Qed.

Lemma decode_shows_loading_only_witness :
  let w1 := start (fst (handleBarcodeScanned network_down
                          (qr "https://example/nfce?x=2")))
              {| ui := error_over_invoice; pending := []; history := [] |} in
  isScanning error_over_invoice = false /\ invoice (ui w1) = None.
Proof.
  split; [reflexivity|].
  exact (proj1 (decode_shows_loading_only network_down backend_up
                  {| ui := {| hasPermission := Some true; isScanning := true;
                              rawUrl := Some "https://example/nfce?x=2";
                              invoice := Some mercado_x; loading := false;
                              error := Some MSG_CONNECTION |};
                     pending := []; history := [] |}
                  _ (qr "https://example/nfce?x=2") eq_refl)).
Defined.

(** ** The scan control, pressed twice *)

(** Starting a scan and cancelling it, or the reverse, brings the state
    back to what it was: the six cells and the pending tasks are those
    from before the two presses. *)
Theorem press_twice_restores (fetch fetch' : Request -> Settled Response)
    (w w1 : World) :
  step fetch w Press = Some w1 ->
  exists w2,
    step fetch' w1 Press = Some w2
    /\ ui w2 = ui w
    /\ pending w2 = pending w
    /\ history w2
       = history w ++ [SetIsScanning (negb (isScanning (ui w)));
                       SetIsScanning (isScanning (ui w))].
Proof.
  intros Hstep. rewrite step_Press in Hstep.
  destruct (hasPermission (ui w)) as [[|]|] eqn:Hp; try discriminate.
  injection Hstep as <-. rewrite step_Press, !start_spec. cbn.
  rewrite Hp. eexists. split; [reflexivity|]. cbn.
  rewrite !app_nil_r, negb_involutive, <- app_assoc.
  repeat split. destruct (ui w); cbn in *. now subst.
Qed.

Lemma press_twice_restores_witness :
  exists w2,
    step network_down (start [Do (SetIsScanning true)] showing_invoice) Press
    = Some w2
    /\ ui w2 = ui showing_invoice
    /\ pending w2 = pending showing_invoice
    /\ history w2
       = history showing_invoice
         ++ [SetIsScanning (negb (isScanning (ui showing_invoice)));
             SetIsScanning (isScanning (ui showing_invoice))].
Proof.
  apply (press_twice_restores backend_up network_down showing_invoice
           (start [Do (SetIsScanning true)] showing_invoice)).
  reflexivity.
Defined.

(** ** What the error banner can say *)

(** The banner shows one of the two fixed messages and nothing else: the
    body of a failed response and the cause of an exception go to the
    console and never reach the screen. *)
Theorem banner_shows_fixed_messages (fetch : Request -> Settled Response)
    (w : World) (m : MainScreen) :
  reachable w ->
  App fetch (ui w) = Container m ->
  statusBoxError m = None
  \/ statusBoxError m = Some [Lit MSG_PROCESSING]
  \/ statusBoxError m = Some [Lit MSG_CONNECTION].
Proof.
  intros Hreach Happ. destruct (reachable_error w Hreach) as [Hok _].
  unfold App in Happ.
  destruct (hasPermission (ui w)) as [[|]|]; try discriminate.
  injection Happ as <-. cbn.
  destruct Hok as [->|[->| ->]]; destruct (loading (ui w)); cbn; auto.
Qed.

Lemma after_failure_reachable :
  reachable {| ui := {| hasPermission := Some true; isScanning := false;
                        rawUrl := Some "https://example/nfce?x=1";
                        invoice := None; loading := false;
                        error := Some MSG_CONNECTION |};
               pending := [];
               history := history scanning
                          ++ [SetIsScanning false;
                              SetRawUrl (Some "https://example/nfce?x=1");
                              ConsoleLog "QR LIDO:"
                                (LogText "https://example/nfce?x=1");
                              SetLoading true; SetError None; SetInvoice None;
                              Fetch (request_for "https://example/nfce?x=1");
                              ConsoleError "Erro fetch:"
                                (LogError (TypeError "Network request failed"));
                              SetError (Some MSG_CONNECTION);
                              SetLoading false] |}.
Proof.
  apply (run_reachable scanning
           [(network_down, Scanned (qr "https://example/nfce?x=1"));
            (network_down, Settle 0)]).
  - exact scanning_reachable.
  - reflexivity.
Defined.

Lemma banner_shows_fixed_messages_witness :
  exists m,
    App backend_up
      {| hasPermission := Some true; isScanning := false;
         rawUrl := Some "https://example/nfce?x=1"; invoice := None;
         loading := false; error := Some MSG_CONNECTION |}
    = Container m
    /\ (statusBoxError m = None
        \/ statusBoxError m = Some [Lit MSG_PROCESSING]
        \/ statusBoxError m = Some [Lit MSG_CONNECTION]).
Proof.
  eexists. split; [reflexivity|].
  exact (banner_shows_fixed_messages backend_up _ _
           after_failure_reachable eq_refl).
Defined.

(** ** The permission views *)

(** Nothing can happen on a screen that has mounted but for the
    permission request to settle. *)
Lemma mount_steps answer fetch e w' :
  step fetch (mount answer) e = Some w' ->
  e = Settle 0
  /\ exists r, answer = Fulfilled r
     /\ ui w' = apply (SetHasPermission
                         (Some (Camera.status r =? "granted")%string)) initial
     /\ pending w' = []
     /\ history w'
        = [RequestCameraPermissions;
           SetHasPermission (Some (Camera.status r =? "granted")%string)].
Proof.
  destruct answer as [r|err]; destruct e as [|result|[|i]]; cbn;
    try discriminate; try (destruct i; discriminate).
  intros [= <-]. split; [reflexivity|]. exists r. repeat split.
Qed.

Lemma unknown_is_mount w :
  reachable w -> hasPermission (ui w) = None -> exists answer, w = mount answer.
Proof.
  induction 1 as [answer|w fetch e w' Hreach IH Hstep]; intros Hnone.
  - now exists answer.
  - destruct (hasPermission (ui w)) as [b|] eqn:Hp.
    + pose proof (permission_kept fetch w e w' (reachable_inv w Hreach)
                    ltac:(congruence) Hstep) as Hkept. congruence.
    + destruct (IH eq_refl) as [answer ->].
      destruct (mount_steps answer fetch e w' Hstep)
        as (_ & r & _ & Hui & _).
      rewrite Hui in Hnone. discriminate.
Qed.

(** While the permission is unknown the screen is as it mounted: it
    shows the pending view, it has made no request to the backend, and
    the one thing that can happen is the permission request settling,
    after which the permission is known. *)
Theorem unknown_permission_waits (fetch : Request -> Settled Response)
    (w : World) :
  reachable w ->
  hasPermission (ui w) = None ->
  ui w = initial
  /\ App fetch (ui w) = Center [Lit "Pedindo permissão da câmera..."]
  /\ requests (history w) = []
  /\ (forall fetch' e w',
        step fetch' w e = Some w' ->
        e = Settle 0 /\ exists b, hasPermission (ui w') = Some b).
Proof.
  intros Hreach Hnone. destruct (unknown_is_mount w Hreach Hnone) as [answer ->].
  assert (ui (mount answer) = initial /\ requests (history (mount answer)) = [])
    as [Hui Hreq] by (unfold mount; rewrite start_spec; now destruct answer).
  rewrite Hui, Hreq. repeat split.
  - apply (mount_steps answer fetch' e w' H).
  - destruct (mount_steps answer fetch' e w' H) as (_ & r & _ & -> & _).
    eexists. reflexivity.
Qed.

Lemma unknown_permission_waits_witness :
  ui (mount granted) = initial /\ requests (history (mount granted)) = [].
Proof.
  destruct (unknown_permission_waits backend_up (mount granted)
              (reachable_mount granted) eq_refl) as (Hui & _ & Hreq & _).
  exact (conj Hui Hreq).
Defined.

(** When the permission request rejects nothing catches it: no event is
    possible afterwards, and the screen stays on the pending view. *)
Theorem rejected_permission_is_stuck
    (err : JsError) (l : list Input) (w : World) :
  run (mount (Rejected err)) l = Some w ->
  l = [] /\ w = mount (Rejected err) /\ hasPermission (ui w) = None.
Proof.
  destruct l as [|[fetch e] l]; intros Hrun.
  - injection Hrun as <-. auto.
  - change (match step fetch (mount (Rejected err)) e with
            | Some w' => run w' l
            | None => None
            end = Some w) in Hrun.
    destruct (step fetch (mount (Rejected err)) e) as [w1|] eqn:Hstep;
      [|discriminate Hrun].
    destruct (mount_steps _ _ _ _ Hstep) as (_ & r & Hr & _). discriminate Hr.
Qed.

Lemma rejected_permission_is_stuck_witness :
  hasPermission (ui (mount (Rejected (TypeError "Camera unavailable")))) = None.
Proof.
  exact (proj2 (proj2 (rejected_permission_is_stuck
                         (TypeError "Camera unavailable") [] _ eq_refl))).
Defined.

Lemma denied_is_settled w :
  reachable w -> hasPermission (ui w) = Some false ->
  pending w = [] /\ requests (history w) = [] /\ isScanning (ui w) = false.
Proof.
  induction 1 as [answer|w fetch e w' Hreach IH Hstep]; intros Hdenied.
  - unfold mount in Hdenied. rewrite start_spec in Hdenied.
    destruct answer; discriminate.
  - destruct (hasPermission (ui w)) as [b|] eqn:Hp.
    + pose proof (permission_kept fetch w e w' (reachable_inv w Hreach)
                    ltac:(congruence) Hstep) as Hkept.
      assert (b = false) as -> by congruence.
      destruct (IH eq_refl) as (Hnil & _).
      destruct e as [|result|i].
      * rewrite step_Press, Hp in Hstep. discriminate.
      * rewrite step_Scanned, Hp in Hstep. discriminate.
      * cbn in Hstep. rewrite resume_spec, Hnil in Hstep.
        destruct i; discriminate.
    + destruct (unknown_is_mount w Hreach Hp) as [answer ->].
      destruct (mount_steps answer fetch e w' Hstep)
        as (_ & r & _ & -> & -> & ->). repeat split.
Qed.

(** A denied permission is final: the screen shows the denied view, no
    scan was or will be started, no request was or will be made, and no
    event is possible any more. *)
Theorem denied_permission_is_final (fetch : Request -> Settled Response)
    (w : World) :
  reachable w ->
  hasPermission (ui w) = Some false ->
  App fetch (ui w)
  = CenterError [Lit "Sem acesso à câmera. Habilite nas configurações."]
  /\ isScanning (ui w) = false
  /\ requests (history w) = []
  /\ (forall fetch' e, step fetch' w e = None).
Proof.
  intros Hreach Hdenied.
  destruct (denied_is_settled w Hreach Hdenied) as (Hnil & Hreq & Hidle).
  split; [unfold App; now rewrite Hdenied|].
  repeat split; auto. intros fetch' [|result|i].
  - now rewrite step_Press, Hdenied.
  - now rewrite step_Scanned, Hdenied.
  - cbn. rewrite resume_spec, Hnil. now destruct i.
Qed.

Lemma denied_reachable :
  reachable {| ui := apply (SetHasPermission (Some false)) initial;
               pending := [];
               history := [RequestCameraPermissions;
                           SetHasPermission (Some false)] |}.
Proof.
  apply (reachable_step (mount denied) backend_up (Settle 0)).
  - constructor.
  - reflexivity.
Defined.

Lemma denied_permission_is_final_witness :
  step backend_up
    {| ui := apply (SetHasPermission (Some false)) initial;
       pending := [];
       history := [RequestCameraPermissions; SetHasPermission (Some false)] |}
    Press
  = None.
Proof.
  exact (proj2 (proj2 (proj2 (denied_permission_is_final backend_up _
                                denied_reachable eq_refl)))
           backend_up Press).
Defined.

(** ** A scan from an idle screen *)

(** From a screen with the permission granted, no scan going on and
    nothing pending, whatever it displays: the user starts a scan, a code
    is reported, the backend answers with a status in 200..299 and an
    invoice; then the screen shows that invoice, and only it, with the
    decoded text, and an error or an invoice shown before is gone. *)
Theorem scan_then_success_shows_invoice
    (fetch : Request -> Settled Response) (w : World)
    (result : Camera.BarcodeScanningResult) (res : Response)
    (data : Invoice) :
  hasPermission (ui w) = Some true ->
  isScanning (ui w) = false ->
  pending w = [] ->
  fetch (request_for (Camera.data result)) = Fulfilled res ->
  ok res = true ->
  json res = Fulfilled (Some (invoice_json data)) ->
  exists w',
    run w [(fetch, Press); (fetch, Scanned result);
           (fetch, Settle 0); (fetch, Settle 0)] = Some w'
    /\ ui w' = {| hasPermission := Some true; isScanning := false;
                  rawUrl := Some (Camera.data result);
                  invoice := Some (invoice_json data);
                  loading := false; error := None |}
    /\ pending w' = []
    /\ exists m,
         App fetch (ui w') = Container m
         /\ status_contents m = [InvoiceCard]
         /\ resultScroll m
            = Some (Built (invoiceResult (Some (Camera.data result)) data)).
Proof.
  intros Hp Hidle Hnil Hnet Hok Hbody.
  cbn [run]. rewrite step_Press, Hp, start_spec, Hidle, Hnil.
  cbn [first_run continuation park app negb apply_all fold_left].
  rewrite step_Scanned. cbn [ui apply hasPermission isScanning].
  rewrite Hp, start_spec, handleBarcodeScanned_task, fetchNFCe_task, Hnet.
  unfold prelude, epilogue. rewrite Hok, Hbody.
  set (v := invoice_json data) in *.
  assert (truthy_value v = true) as Hv by reflexivity.
  pose proof (renderResult_declared (Some (Camera.data result)) data) as Hr.
  fold v in Hr. clearbody v. cbn.
  eexists. split; [reflexivity|]. repeat split.
  unfold App. cbn. rewrite Hv. cbn.
  eexists. split; [reflexivity|]. cbn. split; [reflexivity|].
  now rewrite <- Hr.
Qed.

Lemma scan_then_success_shows_invoice_witness :
  exists w',
    run {| ui := error_over_invoice; pending := []; history := [] |}
      [(backend_up, Press); (backend_up, Scanned (qr "https://example/nfce?x=1"));
       (backend_up, Settle 0); (backend_up, Settle 0)] = Some w'
    /\ invoice (ui w') = Some mercado_x /\ error (ui w') = None.
Proof.
  destruct (scan_then_success_shows_invoice backend_up
              {| ui := error_over_invoice; pending := []; history := [] |}
              (qr "https://example/nfce?x=1")
              {| status := 200; text := Fulfilled "{...}";
                 json := Fulfilled (Some mercado_x) |}
              mercado_x_invoice
              eq_refl eq_refl eq_refl eq_refl eq_refl eq_refl)
    as (w' & Hrun & Hui & _).
  exists w'. split; [exact Hrun|]. rewrite Hui. split; reflexivity.
Defined.

(** The same, with the request failing: the invoice that was on display
    is gone for good and the banner shows the connection message; a scan
    that fails does not bring the previous result back. *)
Theorem failed_rescan_drops_invoice
    (fetch : Request -> Settled Response) (w : World)
    (result : Camera.BarcodeScanningResult) (err : JsError) :
  hasPermission (ui w) = Some true ->
  isScanning (ui w) = false ->
  pending w = [] ->
  fetch (request_for (Camera.data result)) = Rejected err ->
  exists w',
    run w [(fetch, Press); (fetch, Scanned result); (fetch, Settle 0)]
    = Some w'
    /\ ui w' = {| hasPermission := Some true; isScanning := false;
                  rawUrl := Some (Camera.data result); invoice := None;
                  loading := false; error := Some MSG_CONNECTION |}
    /\ pending w' = []
    /\ exists m,
         App fetch (ui w') = Container m
         /\ status_contents m = [ErrorBanner]
         /\ statusBoxError m = Some [Lit MSG_CONNECTION].
Proof.
  intros Hp Hidle Hnil Hnet.
  cbn [run]. rewrite step_Press, Hp, start_spec, Hidle, Hnil.
  cbn [first_run continuation park app negb apply_all fold_left].
  rewrite step_Scanned. cbn [ui apply hasPermission isScanning].
  rewrite Hp, start_spec, handleBarcodeScanned_task, fetchNFCe_task, Hnet.
  unfold prelude, epilogue. cbn.
  eexists. split; [reflexivity|]. repeat split.
  eexists. repeat split.
Qed.

Lemma failed_rescan_drops_invoice_witness :
  exists w',
    run showing_invoice
      [(network_down, Press);
       (network_down, Scanned (qr "https://example/nfce?x=2"));
       (network_down, Settle 0)] = Some w'
    /\ invoice (ui showing_invoice) = Some mercado_x
    /\ invoice (ui w') = None.
Proof.
  destruct (failed_rescan_drops_invoice network_down showing_invoice
              (qr "https://example/nfce?x=2")
              (TypeError "Network request failed")
              eq_refl eq_refl eq_refl eq_refl)
    as (w' & Hrun & Hui & _).
  exists w'. split; [exact Hrun|]. rewrite Hui. split; reflexivity.
Defined.

(** ** One fetch at a time *)

Lemma epilogue_outcome answer : outcome_task (epilogue answer).
Proof.
  unfold epilogue, failed.
  destruct answer as [res|e]; [destruct (ok res);
    [destruct (json res)|destruct (text res)]|].
  1-4: apply (outcome_later [_; _; _]).
  5: apply (outcome_now [_; _; _]).
  all: unfold outcome_actions; eauto 6.
Qed.

Lemma park_epilogue answer : park (epilogue answer) = [epilogue answer].
Proof.
  unfold epilogue, failed.
  destruct answer as [res|e]; [destruct (ok res);
    [destruct (json res)|destruct (text res)]|]; reflexivity.
Qed.

Lemma run_actions acts :
  first_run (map Do acts) = acts /\ continuation (map Do acts) = [].
Proof. induction acts as [|a acts [IH1 IH2]]; cbn; [auto|]. now rewrite IH1. Qed.

Lemma one_at_a_time_step fetch w e w' :
  one_at_a_time w ->
  step fetch w e = Some w' ->
  match e with Scanned _ => pending w = [] | _ => True end ->
  one_at_a_time w'.
Proof.
  intros Hone Hstep Hidle. destruct e as [|result|i].
  - rewrite step_Press in Hstep.
    destruct (hasPermission (ui w)) as [[|]|]; try discriminate.
    injection Hstep as <-. rewrite start_spec. unfold one_at_a_time. cbn.
    now rewrite app_nil_r.
  - rewrite step_Scanned in Hstep.
    destruct (hasPermission (ui w)) as [[|]|]; try discriminate.
    destruct (isScanning (ui w)); [|discriminate].
    injection Hstep as <-. rewrite start_spec, fetchNFCe_task.
    unfold prelude. cbn [first_run continuation app ui pending].
    pose proof (epilogue_outcome
                  (fetch (request_for (Camera.data result)))) as Hout.
    right. cbn. split; [reflexivity|]. split; [reflexivity|]. right.
    rewrite Hidle, park_epilogue. eexists. split; [reflexivity|exact Hout].
  - cbn in Hstep. rewrite resume_spec in Hstep.
    destruct Hone as [[Hnil _]|(Hinv & Herr & [[b Hperm]|(t & Ht & Hout)])].
    + rewrite Hnil in Hstep. destruct i; discriminate.
    + rewrite Hperm in Hstep.
      destruct i as [|i]; [|destruct i; discriminate].
      injection Hstep as <-. left. cbn. auto.
    + rewrite Ht in Hstep.
      destruct i as [|i]; [|destruct i; discriminate].
      cbn [nth_error firstn skipn app] in Hstep. injection Hstep as <-.
      destruct Hout as [acts Hacts|acts Hacts].
      * destruct (run_actions acts) as [-> ->]. left. cbn [ui pending park app].
        split; [reflexivity|].
        destruct Hacts as [(label & what & msg & ->)|(data & ->)]; cbn; auto.
      * right. cbn [first_run continuation ui pending apply_all fold_left].
        split; [assumption|]. split; [assumption|]. right.
        exists (map Do acts). split; [|now constructor].
        rewrite app_nil_r.
        now destruct Hacts as [(label & what & msg & ->)|(data & ->)].
Qed.

(** When the user never scans while a fetch is in flight, [invoice] and
    [error] are never both set, at any moment of any run of the screen;
    while a task is pending both are [null]. *)
Theorem one_fetch_at_a_time_never_both
    (answer : Settled Camera.PermissionResponse) (l : list Input)
    (w : World) :
  run (mount answer) l = Some w ->
  scans_when_idle (mount answer) l ->
  (invoice (ui w) = None \/ error (ui w) = None)
  /\ (pending w = [] \/ (invoice (ui w) = None /\ error (ui w) = None)).
Proof.
  intros Hrun Hidle.
  assert (one_at_a_time w) as Hone.
  { assert (one_at_a_time (mount answer)) as Hstart.
    { unfold mount. rewrite start_spec.
      destruct answer; [right|left]; cbn; auto.
      repeat split. left. eauto. }
    revert Hstart Hrun Hidle. generalize (mount answer) as w0.
    induction l as [|[fetch e] l IH]; intros w0 Hstart Hrun Hidle;
      cbn in Hrun, Hidle.
    - now injection Hrun as <-.
    - destruct (step fetch w0 e) as [w1|] eqn:Hstep; [|discriminate].
      destruct Hidle as [Hnow Hlater].
      apply (IH w1); auto.
      now apply (one_at_a_time_step fetch w0 e w1). }
  destruct Hone as [[Hnil Hone]|(Hinv & Herr & _)]; auto.
Qed.

Lemma one_fetch_at_a_time_witness :
  exists w,
    run (mount granted) two_scans_in_turn = Some w
    /\ (invoice (ui w) = None \/ error (ui w) = None).
Proof.
  exists (match run (mount granted) two_scans_in_turn with
          | Some w => w
          | None => mount granted
          end).
  split; [vm_compute; reflexivity|].
  refine (proj1 (one_fetch_at_a_time_never_both granted two_scans_in_turn _
                   _ _)).
  - vm_compute. reflexivity.
  - vm_compute. repeat split.
Defined.

(** ** The value of a rendered amount *)

Lemma read_digits_app acc x y :
  read_digits acc (x ++ y)%string = read_digits (read_digits acc x) y.
Proof. revert acc; induction x as [|c x IH]; intros acc; cbn; auto. Qed.

Lemma read_zeros k : read_digits 0 (zeros k) = 0%N.
Proof. induction k as [|k IH]; cbn; auto. Qed.

Lemma read_uint_acc d p :
  read_digits (Npos p) (NilEmpty.string_of_uint d)
  = Npos (Pos.of_uint_acc d p).
Proof.
  revert p; induction d; intros p; cbn [NilEmpty.string_of_uint read_digits
                                         Pos.of_uint_acc];
    try reflexivity.
  all: match goal with
       | |- read_digits (_ + digit_value ?c) _ = _ =>
           let v := eval vm_compute in (digit_value c) in
           change (digit_value c) with v
       end.
  all: match goal with
       | |- read_digits ?a _ = Npos (Pos.of_uint_acc _ ?q) =>
           replace a with (Npos q) by lia
       end; apply IHd.
Qed.

Lemma read_uint d :
  read_digits 0 (NilEmpty.string_of_uint d) = Pos.of_uint d.
Proof.
  induction d; cbn [NilEmpty.string_of_uint read_digits Pos.of_uint];
    try reflexivity; try exact IHd.
  all: match goal with
       | |- read_digits ?a _ = Npos (Pos.of_uint_acc _ ?q) =>
           change a with (Npos q)
       end; apply read_uint_acc.
Qed.

(** Reading the digits of a number gives the number back. *)
Lemma read_decimal n : (0 <= n)%Z -> Z.of_N (read_digits 0 (decimal n)) = n.
Proof.
  intros Hn. unfold decimal, NilZero.string_of_uint.
  rewrite <- (Z2N.id n Hn) at 2. f_equal.
  rewrite <- (DecimalN.Unsigned.of_to (Z.to_N n)) at 2.
  destruct (N.to_uint (Z.to_N n)) eqn:E; try reflexivity;
    rewrite <- E; apply read_uint.
Qed.

Lemma without_point_digits s : all_digits s = true -> without_point s = s.
Proof.
  induction s as [|c s IH]; cbn; [reflexivity|]. intros H.
  apply andb_prop in H as [Hc Hs].
  destruct (Ascii.eqb_spec c ".") as [->|_]; [discriminate|].
  now rewrite IH.
Qed.

Lemma without_point_app x y :
  without_point (x ++ y)%string = (without_point x ++ without_point y)%string.
Proof.
  induction x as [|c x IH]; cbn; [reflexivity|].
  destruct (Ascii.eqb c "."); cbn; now rewrite IH.
Qed.

(** The point goes between the digits, which are otherwise those of [m]
    after zeros. *)
Lemma insert_point_2_parts m :
  all_digits m = true -> 1 <= String.length m ->
  exists a b k,
    insert_point 2 m = (a ++ "." ++ b)%string
    /\ (a ++ b)%string = (zeros k ++ m)%string
    /\ all_digits a = true /\ 1 <= String.length a
    /\ all_digits b = true /\ String.length b = 2.
Proof.
  intros Hm Hl. unfold insert_point.
  set (p := if (String.length m <=? 2)%nat
            then (zeros (2 + 1 - String.length m) ++ m)%string else m).
  assert (exists k, p = (zeros k ++ m)%string) as [k Hk].
  { unfold p. destruct (String.length m <=? 2)%nat;
      [eexists; reflexivity|now exists 0]. }
  assert (all_digits p = true /\ 3 <= String.length p) as [Hp Hlp].
  { unfold p. destruct (Nat.leb_spec (String.length m) 2) as [Hle|Hgt].
    - destruct (zeros_digits (2 + 1 - String.length m)) as [Hz Hlz].
      rewrite all_digits_app, length_app, Hz, Hlz, Hm. split; [reflexivity|lia].
    - split; [assumption|lia]. }
  destruct (split_at (String.length p - 2) p) as [a b] eqn:E.
  destruct (split_at_spec _ _ _ _ E) as [Hab Hla].
  exists a, b, k. split; [reflexivity|]. split; [congruence|].
  rewrite Hab, all_digits_app in Hp. apply andb_prop in Hp as [Ha Hb].
  assert (String.length p = String.length a + String.length b) as Hsum
    by (rewrite Hab at 1; apply length_app).
  repeat split; auto; lia.
Qed.

(** What [toFixed(2)] prints reads back as the integer it was made from. *)
Lemma hundredths_of (neg : bool) n :
  (0 <= n)%Z ->
  hundredths ((if neg then "-" else EmptyString)
              ++ insert_point 2 (decimal n))%string
  = if neg then (- n)%Z else n.
Proof.
  intros Hn. destruct (decimal_digits n) as [Hd Hl].
  destruct (insert_point_2_parts (decimal n) Hd Hl)
    as (a & b & k & -> & Hab & Ha & Hla & Hb & Hlb).
  assert (Z.of_N (read_digits 0 (without_point (a ++ String "." b)%string))
          = n) as Hread.
  { rewrite without_point_app. cbn [without_point].
    change (Ascii.eqb "." ".") with true. cbn iota.
    rewrite (without_point_digits a Ha), (without_point_digits b Hb).
    rewrite Hab, read_digits_app, read_zeros.
    now apply read_decimal. }
  change (a ++ "." ++ b)%string with (a ++ String "." b)%string.
  destruct neg.
  - change ("-" ++ a ++ String "." b)%string
      with (String "-" (a ++ String "." b)).
    cbn [hundredths]. change (Ascii.eqb "-" "-") with true. cbn iota.
    now rewrite Hread.
  - change (EmptyString ++ a ++ String "." b)%string
      with (a ++ String "." b)%string.
    destruct a as [|c a]; [cbn in Hla; lia|].
    cbn in Ha. apply andb_prop in Ha as [Hc _].
    change ((String c a) ++ String "." b)%string
      with (String c (a ++ String "." b)) in *.
    cbn [hundredths]. rewrite (digit_not_minus c Hc). exact Hread.
Qed.

(** A finite amount below 10^21 is rendered as the nearest number of
    hundredths: what is printed differs from the amount by half a
    hundredth at most, it carries a minus sign exactly when the amount is
    negative (also when it prints as zero), and it has two decimal
    digits. *)
Theorem toFixed_within_half_a_cent (q : Q) :
  below_1e21 (Finite q) ->
  exists s,
    toFixed 2 (Finite q) = [Lit s]
    /\ fixed2 s = true
    /\ (Qabs (inject_Z (hundredths s) - q * 100) <= 1 # 2)%Q
    /\ (String.get 0 s = Some "-"%char <-> (q < 0)%Q).
Proof.
  intros Hq. destruct (toFixed_2_fixed2 q Hq) as (s & Hs & Hfixed).
  exists s. split; [exact Hs|]. split; [exact Hfixed|].
  cbn [below_1e21] in Hq. unfold toFixed in Hs.
  pose proof (magnitude q) as Hmag. cbv zeta in Hmag.
  set (neg := negb (Qle_bool 0 q)) in *.
  set (ax := if neg then (- q)%Q else q) in *.
  assert (Qle_bool (inject_Z (10 ^ 21)) ax = false) as Hsmall.
  { destruct (Qle_bool (inject_Z (10 ^ 21)) ax) eqn:E; [|reflexivity].
    apply Qle_bool_iff in E. rewrite Hmag in E.
    exfalso. exact (Qlt_not_le _ _ Hq E). }
  rewrite Hsmall in Hs. cbv zeta in Hs.
  pose proof (nearest_hundredth ax) as Hnear. cbv zeta in Hnear.
  set (n := Qfloor (ax * inject_Z (10 ^ Z.of_nat 2) + (1 # 2))) in *.
  assert (s = ((if neg then "-" else EmptyString)
               ++ insert_point 2 (decimal n))%string) as -> by congruence.
  clear Hs.
  assert (0 <= ax)%Q as Hax by (rewrite Hmag; apply Qabs_nonneg).
  assert (0 <= n)%Z as Hn.
  { change 0%Z with (Qfloor 0). apply Qfloor_resp_le.
    change (inject_Z (10 ^ Z.of_nat 2)) with 100%Q. lra. }
  rewrite (hundredths_of neg n Hn).
  assert (neg = true <-> (q < 0)%Q) as Hneg.
  { unfold neg. destruct (Qle_bool 0 q) eqn:E; cbn.
    - apply Qle_bool_iff in E. split; [discriminate|]. intros H.
      exfalso. exact (Qlt_not_le _ _ H E).
    - split; [intros _|reflexivity]. apply Qnot_le_lt. intros H.
      apply Qle_bool_iff in H. congruence. }
  split.
  - apply Qabs_Qle_condition. destruct Hnear as [Hlo Hhi].
    unfold ax in Hlo, Hhi. destruct neg.
    + rewrite inject_Z_opp. split; lra.
    + split; lra.
  - rewrite <- Hneg. destruct neg; cbn [append String.get].
    + split; reflexivity.
    + destruct (decimal_digits n) as [Hd Hl].
      destruct (insert_point_2 (decimal n) Hd Hl)
        as (a & b & -> & Ha & Hla & _).
      destruct a as [|c a]; [cbn in Hla; lia|]. cbn.
      cbn in Ha. apply andb_prop in Ha as [Hc _].
      split; [|discriminate]. intros [= ->]. discriminate Hc.
Qed.

Lemma toFixed_within_half_a_cent_witness :
  exists s,
    toFixed 2 n19_9 = [Lit s]
    /\ fixed2 s = true
    /\ (Qabs (inject_Z (hundredths s)
              - (2800676018271027 # 140737488355328) * 100) <= 1 # 2)%Q
    /\ (String.get 0 s = Some "-"%char <->
        ((2800676018271027 # 140737488355328) < 0)%Q).
Proof.
  apply (toFixed_within_half_a_cent (2800676018271027 # 140737488355328)).
  reflexivity.
Defined.

(** ** The decoded text under the result *)

(** Before a first code is reported there is no invoice and no fetch. *)
Lemma nothing_before_first_scan w :
  reachable w ->
  rawUrl (ui w) = None ->
  invoice (ui w) = None
  /\ (pending w = []
      \/ exists b, pending w = [[Do (SetHasPermission (Some b))]]).
Proof.
  induction 1 as [answer|w fetch e w' Hreach IH Hstep]; intros Hraw.
  - unfold mount. rewrite start_spec.
    destruct answer; cbn; split; eauto.
  - pose proof (reachable_inv w Hreach) as Hinv.
    destruct (step_trace fetch w e w' Hinv Hstep) as [_ Hurl].
    destruct e as [|result|i].
    + rewrite Hurl in Hraw. destruct (IH Hraw) as [Hnone Hpending].
      rewrite step_Press in Hstep.
      destruct (hasPermission (ui w)) as [[|]|]; try discriminate.
      injection Hstep as <-. rewrite start_spec. cbn.
      now rewrite app_nil_r.
    + congruence.
    + rewrite Hurl in Hraw. destruct (IH Hraw) as [Hnone Hpending].
      cbn in Hstep. rewrite resume_spec in Hstep.
      destruct Hpending as [Hnil|[b Hperm]].
      * rewrite Hnil in Hstep. destruct i; discriminate.
      * rewrite Hperm in Hstep.
        destruct i as [|i]; [|destruct i; discriminate].
        injection Hstep as <-. cbn. auto.
Qed.

(** Under an invoice on display there is the text of the code reported
    last, in a box of its own, unless that text is empty: then the box is
    left out.  An invoice is never on display before a code was read. *)
Theorem result_shows_decoded_text (fetch : Request -> Settled Response)
    (w : World) (m : MainScreen) (r : ResultScroll) :
  reachable w ->
  App fetch (ui w) = Container m ->
  resultScroll m = Some (Built r) ->
  exists payload,
    rawUrl (ui w) = Some payload
    /\ rawUrlBox r
       = if truthy payload
         then Some ([Lit "QR lido (URL NFC-e):"], [Lit payload])
         else None.
Proof.
  intros Hreach Happ Hres.
  destruct (App_result fetch (ui w) m _ Happ Hres)
    as (v & Hinv & _ & _ & _ & Hr).
  destruct (rawUrl (ui w)) as [payload|] eqn:Hraw.
  - exists payload. split; [reflexivity|].
    symmetry in Hr.
    apply renderResult_built in Hr as (_ & _ & _ & _ & _ & _ & ->).
    unfold when. now destruct (truthy payload).
  - destruct (nothing_before_first_scan w Hreach Hraw) as [Hnone _].
    congruence.
Qed.

Lemma showing_empty_code_reachable :
  reachable {| ui := {| hasPermission := Some true; isScanning := false;
                        rawUrl := Some EmptyString; invoice := Some mercado_x;
                        loading := false; error := None |};
               pending := [];
               history := history scanning
                          ++ [SetIsScanning false; SetRawUrl (Some EmptyString);
                              ConsoleLog "QR LIDO:" (LogText EmptyString);
                              SetLoading true; SetError None; SetInvoice None;
                              Fetch (request_for EmptyString);
                              ConsoleLog "Invoice:"
                                (LogInvoice (Some mercado_x));
                              SetInvoice (Some mercado_x);
                              SetLoading false] |}.
Proof.
  apply (run_reachable scanning
           [(backend_up, Scanned (qr EmptyString));
            (backend_up, Settle 0); (backend_up, Settle 0)]).
  - exact scanning_reachable.
  - reflexivity.
Defined.

Lemma result_shows_decoded_text_witness :
  exists payload,
    Some EmptyString = Some payload
    /\ rawUrlBox (invoiceResult (Some EmptyString) mercado_x_invoice)
       = if truthy payload
         then Some ([Lit "QR lido (URL NFC-e):"], [Lit payload])
         else None.
Proof.
  exact (result_shows_decoded_text backend_up _ _
           (invoiceResult (Some EmptyString) mercado_x_invoice)
           showing_empty_code_reachable eq_refl eq_refl).
Defined.
